(** * Verification of [maad.rois.rois_1d]

    A shallow embedding of the one-dimensional region-of-interest
    detector of scikit-maad ([src/maad/rois/rois_1d.py]): the band
    filter [sinc], the boundary reconciler [corresp_onset_offset], the
    energy reducer [energy_windowed] and the entry point
    [find_rois_cwt].

    Conventions of the embedding.
    - Python floats are idealised as exact rationals ([Q]); comparisons
      are the exact ones.  Python ints are [Z], array lengths and
      indices are [nat].
    - A Python call that may raise returns a [result]: [Ok v] for a
      normal return, [Raise e] for an exception [e].
    - numpy arrays are lists; indexing out of range raises
      [IndexError], as in Python.
    - The numerical kernels of scipy ([kaiserord], [firwin], [lfilter],
      [cwt] with the Ricker wavelet) are not part of the repository:
      they are parameters of the functions that call them. *)

From Stdlib Require Import QArith Qabs Qminmax Qround Qpower Lqa.
From stdpp Require Import base list strings.

Open Scope Q_scope.

(** ** Exceptions and the error monad *)

Module Py.

(** Python exception classes the code can meet.  [OtherError] carries
    the class name of any exception a library may raise. *)
Inductive exn : Type :=
  | ZeroDivisionError
  | ValueError
  | IndexError
  | OtherError (cls : string).

Inductive result (A : Type) : Type :=
  | Ok (a : A)
  | Raise (e : exn).
Arguments Ok {A} a.
Arguments Raise {A} e.

Definition bind {A B} (m : result A) (k : A -> result B) : result B :=
  match m with
  | Ok a => k a
  | Raise e => Raise e
  end.

Definition of_option {A} (e : exn) (o : option A) : result A :=
  match o with
  | Some a => Ok a
  | None => Raise e
  end.

End Py.

Import Py.

#[global] Instance result_ret : MRet result := fun A a => Ok a.
#[global] Instance result_bind : MBind result := fun A B k m => Py.bind m k.

(** The exception class the specification names for a malformed band.
    No such class is defined in the repository; it can only be
    mentioned through its name. *)
Definition InvalidBandError : exn := OtherError "InvalidBandError".

(** ** Python and numpy primitives *)

(** Python's [x / y] on floats: division by zero raises. *)
Definition pydiv (x y : Q) : result Q :=
  if Qeq_bool y 0 then Raise ZeroDivisionError else Ok (x / y).

(** Strict comparison [x > y]. *)
Definition Qgtb (x y : Q) : bool := negb (Qle_bool x y).

(** ** The band filter [sinc] *)

(** The value of the expression statement on line 37,
    [np.ceil(numtaps-1) // 2 * 2 + 1]: [numtaps] is an integer, so the
    ceiling is the identity and [//] is floor division. *)
Definition round_odd (numtaps : Z) : Z := ((numtaps - 1) / 2 * 2 + 1)%Z.

Section Sinc.

(** [scipy.signal.kaiserord(ripple, width)] returns [(numtaps, beta)]. *)
Variable kaiserord : Q -> Q -> result (Z * Q).
(** [scipy.signal.firwin(numtaps, cutoff, window=('kaiser', beta),
    scale=False, nyq=nyq, pass_zero=pass_zero)]. *)
Variable firwin : Z -> Q * Q -> Q -> Q -> bool -> result (list Q).
(** [scipy.signal.lfilter(b, a, x)]. *)
Variable lfilter : list Q -> Q -> list Q -> result (list Q).

Definition sinc (s : list Q) (cutoff : Q * Q) (fs atten transition_bw : Q)
    (bandpass : bool) : result (list Q) :=
  let width := (cutoff.2 - cutoff.1) * transition_bw in
  w ← pydiv width (0.5 * fs);
  '(numtaps, beta) ← kaiserord atten w;
  _ ← mret (round_odd numtaps);
  taps ← firwin numtaps cutoff beta (0.5 * fs) (negb bandpass);
  s_filt ← lfilter taps 1 s;
  mret s_filt.

(** [sinc] as the specification reads it: the same function with the
    expression statement of line 37 removed. *)
Definition sinc_without_rounding (s : list Q) (cutoff : Q * Q)
    (fs atten transition_bw : Q) (bandpass : bool) : result (list Q) :=
  let width := (cutoff.2 - cutoff.1) * transition_bw in
  w ← pydiv width (0.5 * fs);
  '(numtaps, beta) ← kaiserord atten w;
  taps ← firwin numtaps cutoff beta (0.5 * fs) (negb bandpass);
  s_filt ← lfilter taps 1 s;
  mret s_filt.

End Sinc.

(** ** numpy array primitives *)

Definition Qsum (l : list Q) : Q := foldr Qplus 0 l.

(** [np.mean] of a one-dimensional array. *)
Definition np_mean (l : list Q) : Q := Qsum l / inject_Z (Z.of_nat (length l)).

(** One round of numpy's reflection on the right: the chunk mirrors the
    values next to the edge, the edge itself left out; numpy repeats the
    round on the grown array while pad remains. *)
Fixpoint reflect_tail (fuel : nat) (a : list Q) (k : nat) : list Q :=
  match fuel with
  | O => a
  | S fuel' =>
      match k with
      | O => a
      | S _ =>
          let chunk := (length a - 1) `min` k in
          reflect_tail fuel' (a ++ take chunk (tail (reverse a))) (k - chunk)
      end
  end.

(** The [k] values that [np.pad(a, (0, k), 'reflect')] appends. *)
Definition reflect_ext (a : list Q) (k : nat) : list Q :=
  drop (length a) (reflect_tail k a k).

(** [np.pad(a, (before, after), 'reflect')] on a one-dimensional array:
    a negative width is refused, an empty array cannot be extended, an
    array of one value is extended by that value. *)
Definition np_pad_reflect (a : list Q) (before after : Z) : result (list Q) :=
  if ((before <? 0) || (after <? 0))%Z then Raise ValueError
  else
    match a with
    | [] => if ((before =? 0) && (after =? 0))%Z then Ok [] else Raise ValueError
    | [x] => Ok (replicate (Z.to_nat before) x ++ a ++ replicate (Z.to_nat after) x)
    | _ => Ok (reverse (reflect_ext (reverse a) (Z.to_nat before))
                 ++ a ++ reflect_ext a (Z.to_nat after))
    end.

(** Rows of [cols] values each, in order. *)
Fixpoint chunks (rows cols : nat) (a : list Q) : list (list Q) :=
  match rows with
  | O => []
  | S rows' => take cols a :: chunks rows' cols (drop cols a)
  end.

(** [np.reshape(a, (rows, cols))]: the sizes must agree. *)
Definition np_reshape (a : list Q) (rows cols : Z) : result (list (list Q)) :=
  if ((0 <=? rows) && (0 <=? cols) && (rows * cols =? Z.of_nat (length a)))%Z
  then Ok (chunks (Z.to_nat rows) (Z.to_nat cols) a)
  else Raise ValueError.

(** [np.diff]: forward difference [a[i+1] - a[i]]. *)
Definition np_diff (a : list Z) : list Z := zip_with Z.sub (tail a) a.

(** [np.where(cond)] on a one-dimensional array: the indices that
    satisfy the condition, in increasing order. *)
Fixpoint where_from (k : nat) (p : Z -> bool) (d : list Z) : list nat :=
  match d with
  | [] => []
  | x :: d' => if p x then k :: where_from (S k) p d' else where_from (S k) p d'
  end.

Definition np_where (p : Z -> bool) (d : list Z) : list nat := where_from 0 p d.

(** [t[idx]] with an index array: every index must be in range. *)
Definition np_take (t : list Q) (idx : list nat) : result (list Q) :=
  mapM (fun i => of_option IndexError (t !! i)) idx.

(** [a[lo:hi]] on a list, with Python's treatment of negative and
    out-of-range bounds. *)
Definition py_index (len i : Z) : Z :=
  if (i <? 0)%Z then Z.max 0 (i + len) else Z.min i len.

Definition py_slice {A} (a : list A) (lo hi : Z) : list A :=
  let len := Z.of_nat (length a) in
  let lo' := py_index len lo in
  let hi' := py_index len hi in
  take (Z.to_nat (hi' - lo')) (drop (Z.to_nat lo') a).

(** Python's [round(x)]: to the nearest integer, ties to even. *)
Definition py_round (x : Q) : Z :=
  let f := Qfloor x in
  match Qcompare (x - inject_Z f) (1 # 2) with
  | Lt => f
  | Gt => (f + 1)%Z
  | Eq => if Z.even f then f else (f + 1)%Z
  end.

(** [np.round(x, 5)]. *)
Definition np_round5 (x : Q) : Q :=
  inject_Z (py_round (x * 100000)) / 100000.

(** [np.floor(np.log2(x))] for [0 < x]. *)
Definition floor_log2 (x : Q) : Z :=
  if Qle_bool 1 x then Z.log2 (Qfloor x)
  else (- Z.log2_up (Qceiling (/ x)))%Z.

(** [2**np.floor(np.log2(x))]: numpy gives [nan] below zero (here
    [None]) and [2**(-inf) = 0] at zero, without raising. *)
Definition exp2_floor_log2 (x : Q) : option Q :=
  match Qcompare x 0 with
  | Lt => None
  | Eq => Some 0
  | Gt => Some (2 ^ floor_log2 x)
  end.

(** [int(x)] on a float: [nan] raises, otherwise truncation. *)
Definition py_int (x : option Q) : result Z :=
  match x with
  | None => Raise ValueError
  | Some q => Ok (Qnum q ÷ Zpos (Qden q))%Z
  end.

(** ** The boundary reconciler [corresp_onset_offset] *)

(** [onset[0]], [offset[0]], [onset[-1]] and [offset[-1]] are read
    without a check: on an empty array each raises [IndexError].
    [np.insert(onset, 0, tmin)] puts [tmin] in front,
    [np.append(offset, tmax)] puts [tmax] at the end. *)
Definition corresp_onset_offset (onset offset : list Q) (tmin tmax : Q)
    : result (list Q * list Q) :=
  on0 ← of_option IndexError (head onset);
  off0 ← of_option IndexError (head offset);
  let onset := if Qgtb on0 off0 then tmin :: onset else onset in
  onl ← of_option IndexError (last onset);
  offl ← of_option IndexError (last offset);
  let offset := if Qgtb onl offl then offset ++ [tmax] else offset in
  mret (onset, offset).

(** ** The energy reducer [energy_windowed] *)

(** Python's [a % b] on ints. *)
Definition pymod (a b : Z) : result Z :=
  if (b =? 0)%Z then Raise ZeroDivisionError else Ok (a mod b)%Z.

(** The pad amount of line 96, [wl - len(s) % wl]. *)
Definition pad_amount (len_s wl : Z) : result Z :=
  r ← pymod len_s wl; mret (wl - r)%Z.

(** Line 96: the padded signal. *)
Definition padded (s : list Q) (wl : Z) : result (list Q) :=
  k ← pad_amount (Z.of_nat (length s)) wl;
  np_pad_reflect s 0 k.

Definition energy_windowed (s : list Q) (wl : Z) (fs : Q)
    : result (list Q * list Q) :=
  s_aux ← padded s wl;
  let s_aux := (fun x => x ^ 2) <$> s_aux in
  rows ← py_int (Some (inject_Z (Z.of_nat (length s_aux)) / inject_Z wl));
  s_aux ← np_reshape s_aux rows wl;
  let s_rms := np_mean <$> s_aux in
  half ← pydiv (inject_Z wl * 0.5) fs;
  let time :=
    (fun k => inject_Z (Z.of_nat k) * inject_Z wl / fs + half)
      <$> seq 0 (length s_rms) in
  mret (time, s_rms).

(** ** The entry point [find_rois_cwt] *)

(** A pandas table: column names and rows. *)
Record DataFrame : Type := { columns : list string; rows : list (list Q) }.

(** [pd.DataFrame(data=None)]. *)
Definition empty_frame : DataFrame := {| columns := []; rows := [] |}.

(** The side effects of the entry point, in the order they happen. *)
Inductive effect : Type :=
  | Print (msg : string)
  | ToCsv (file : string) (header : bool) (df : DataFrame)
  | Plot (s_cwt : list Q) (th : Q) (rects : list (Q * Q * Q * Q)).

(** Line 149: the mask [s_cwt > th]. *)
Definition segments_bin (s_cwt : list Q) (th : Q) : list bool :=
  (fun x => Qgtb x th) <$> s_cwt.

(** [segments_bin.astype(int)]. *)
Definition astype_int (m : list bool) : list Z := Z.b2z <$> m.

(** Lines 150 and 151: [t[np.where(cond(np.diff(mask)))] + t[0]]. *)
Definition edge_times (cond : Z -> bool) (t : list Q) (mask : list bool)
    : result (list Q) :=
  picked ← np_take t (np_where cond (np_diff (astype_int mask)));
  t0 ← of_option IndexError (t !! 0%nat);
  mret ((fun x => x + t0) <$> (picked : list Q)).

Definition onset_times (t : list Q) (mask : list bool) : result (list Q) :=
  edge_times (fun d => (d >? 0)%Z) t mask.

Definition offset_times (t : list Q) (mask : list bool) : result (list Q) :=
  edge_times (fun d => (d <? 0)%Z) t mask.

(** [np.transpose] of four rows followed by [pd.DataFrame(.., columns=cols)]:
    rows of unequal length do not make a table of four columns. *)
Fixpoint zip4 (a b c d : list Q) : list (list Q) :=
  match a, b, c, d with
  | x :: a', y :: b', z :: c', w :: d' => [x; y; z; w] :: zip4 a' b' c' d'
  | _, _, _, _ => []
  end.

Definition np_transpose4 (a b c d : list Q) : result (list (list Q)) :=
  if ((length a =? length b) && (length b =? length c)
      && (length c =? length d))%nat
  then Ok (zip4 a b c d) else Raise ValueError.

(** Lines 164 to 172: the table of a detection and its optional CSV
    file. *)
Definition build_table (flims : Q * Q) (save_df : bool) (file : string)
    (onset offset : list Q) : result (DataFrame * list effect) :=
  rois_tf ← np_transpose4 (np_round5 <$> onset)
               (replicate (length onset) flims.1)
               (np_round5 <$> offset)
               (replicate (length onset) flims.2);
  let df := {| columns := ["onset"; "fmin"; "offset"; "fmax"]%string;
               rows := rois_tf |} in
  mret (df, if save_df then [ToCsv file true df] else []).

(** Lines 153 to 172: the branch on an empty edge sequence.  [len_s] is
    [len(s)], [savefilename] is the entry of [kwargs], if any. *)
Definition format_rois (len_s : nat) (fs : Q) (flims : Q * Q)
    (save_df : bool) (savefilename : option string)
    (onset offset : list Q) : result (DataFrame * list effect) :=
  let file := default "rois.csv"%string savefilename in
  if ((length onset =? 0) || (length offset =? 0))%nat then
    let df := empty_frame in
    mret (df, Print "Warning: No detection found"
                :: (if save_df then [ToCsv file false df] else []))
  else
    tmax ← pydiv (inject_Z (Z.of_nat len_s)) fs;
    '(onset, offset) ← corresp_onset_offset onset offset 0 tmax;
    build_table flims save_df file onset offset.

(** Lines 191 to 197: one rectangle per row of a non-empty table. *)
Definition rects_of (df : DataFrame) : list (Q * Q * Q * Q) :=
  omap (fun r =>
          match r with
          | [on; fmin; off; fmax] => Some (on, fmin, off - on, fmax - fmin)
          | _ => None
          end) (rows df).

Section FindRois.

Variable kaiserord : Q -> Q -> result (Z * Q).
Variable firwin : Z -> Q * Q -> Q -> Q -> bool -> result (list Q).
Variable lfilter : list Q -> Q -> list Q -> result (list Q).
(** [scipy.signal.cwt(data, scipy.signal.ricker, [width])[0]]. *)
Variable cwt_ricker : list Q -> Z -> result (list Q).

(** Lines 138 to 147: the smoothed series and its time grid.  [wl] is
a float that may be [nan]; [int(wl)] then raises, and a [wl] below 1
makes [energy_windowed] raise, so the division of line 143 is only
reached with [wl >= 1]. *)
Definition smoothed (s : list Q) (fs : Q) (flims : Q * Q) (tlen : Q)
    : result (list Q * list Q) :=
  s_filt ← sinc kaiserord firwin lfilter s flims fs 80 0.8 true;
  let wl := exp2_floor_log2 (tlen * fs * 0.05) in
  wl_int ← py_int wl;
  '(t, s_rms) ← energy_windowed s_filt wl_int fs;
  ratio ← pydiv (tlen * fs) (default 0 wl);
  let cwt_width := py_round (ratio / 2) in
  let npad := 5%Z in
  let p := (cwt_width * npad)%Z in
  s_rms ← np_pad_reflect s_rms p p;
  s_cwt ← cwt_ricker s_rms cwt_width;
  let s_cwt := py_slice s_cwt p (Z.of_nat (length s_cwt) - p) in
  mret (t, s_cwt).

Definition find_rois_cwt (s : list Q) (fs : Q) (flims : Q * Q) (tlen th : Q)
    (display save_df : bool) (savefilename : option string)
    : result (DataFrame * list effect) :=
  '(t, s_cwt) ← smoothed s fs flims tlen;
  let mask := segments_bin s_cwt th in
  onset ← onset_times t mask;
  offset ← offset_times t mask;
  '(df, eff) ← format_rois (length s) fs flims save_df savefilename onset offset;
  mret (df, eff ++ if display then [Plot s_cwt th (rects_of df)] else []).

End FindRois.

(** ** Executable instances of the scipy parameters

    The checks these make before any numerical work follow scipy's
    functions of the same names; the real-valued kernels (the Kaiser
    window, the Ricker wavelet) are replaced by rational ones.  They
    serve to run the model on concrete inputs; the general theorems
    quantify over the parameters and do not depend on them. *)

Module Scipy.

(** [np.pi] as the double it is. *)
Definition pi : Q := 884279719003555 # 281474976710656.

(** [kaiser_beta(a)]; the fractional power of the middle range is
    replaced by the identity. *)
Definition kaiser_beta (a : Q) : Q :=
  if Qgtb a 50 then 0.1102 * (a - 8.7)
  else if Qgtb a 21 then 0.5842 * (a - 21) + 0.07886 * (a - 21)
  else 0.

(** [kaiserord(ripple, width)]:
    [numtaps = (A - 7.95) / 2.285 / (np.pi * width) + 1], a Python
    float division, so a zero width raises [ZeroDivisionError]. *)
Definition kaiserord (ripple width : Q) : result (Z * Q) :=
  let a := Qabs ripple in
  if Qgtb 8 a then Raise ValueError
  else
    let beta := kaiser_beta a in
    n ← pydiv ((a - 7.95) / 2.285) (pi * width);
    mret (Qceiling (n + 1), beta).

(** [firwin]: the cutoffs must lie strictly between 0 and [nyq] and
    increase strictly, an even length cannot pass the Nyquist rate,
    and the window length cannot be negative.  The taps are a box. *)
Definition firwin (numtaps : Z) (cutoff : Q * Q) (beta nyq : Q)
    (pass_zero : bool) : result (list Q) :=
  if Qle_bool (Qmin cutoff.1 cutoff.2) 0
   || Qle_bool nyq (Qmax cutoff.1 cutoff.2) then Raise ValueError
  else if Qle_bool cutoff.2 cutoff.1 then Raise ValueError
  else if pass_zero && Z.even numtaps then Raise ValueError
  else if (numtaps <? 0)%Z then Raise ValueError
  else Ok (replicate (Z.to_nat numtaps) (1 / inject_Z numtaps)).

(** [lfilter(b, a, x)] for a scalar [a]: the causal convolution
    [y[n] = sum_k b[k] * x[n-k] / a]. *)
Fixpoint dot (b past : list Q) : Q :=
  match b, past with
  | bk :: b', xk :: past' => Qred (bk * xk + dot b' past')
  | _, _ => 0
  end.

Fixpoint fir (b past x : list Q) : list Q :=
  match x with
  | [] => []
  | xn :: x' => dot b (xn :: past) :: fir b (xn :: past) x'
  end.

Definition lfilter (b : list Q) (a : Q) (x : list Q) : result (list Q) :=
  match b with
  | [] => Raise ValueError
  | _ => y ← mapM (fun v => pydiv v a) (fir b [] x); mret y
  end.

(** [cwt(data, ricker, [width])[0]]: the output has the length of the
    input; the wavelet is replaced by the three-tap [-1, 2, -1]. *)
Fixpoint second_diff (prev : Q) (x : list Q) : list Q :=
  match x with
  | [] => []
  | v :: x' => Qred (2 * v - prev - default 0 (head x')) :: second_diff v x'
  end.

Definition cwt_ricker (data : list Q) (width : Z) : result (list Q) :=
  Ok (second_diff 0 data).

End Scipy.

(** ** The specification's reading of the edge extraction *)

(** The indices at which the forward difference equals [v]. *)
Definition diff_indices (v : Z) (d : list Z) : list nat :=
  filter (fun i => d !! i = Some v) (seq 0 (length d)).

(** The times [t[i] + t[0]] at the indices [i] where the forward
    difference of the mask's integer encoding equals [v]. *)
Definition edge_times_spec (v : Z) (t : list Q) (mask : list bool)
    : result (list Q) :=
  picked ← np_take t (diff_indices v (np_diff (astype_int mask)));
  t0 ← of_option IndexError (t !! 0%nat);
  mret ((fun x => x + t0) <$> (picked : list Q)).

(** [np.sum(mask)]: the number of active samples. *)
Definition active_samples (mask : list bool) : nat :=
  length (filter (fun b => b = true) mask).

(** The number of rows that lines 149 to 172 give for a smoothed series
    [s_cwt] on the grid [t]: the number of detected onset/offset
    pairs. *)
Definition detected_pairs (t s_cwt : list Q) (th : Q) (len_s : nat) (fs : Q)
    : result nat :=
  let mask := segments_bin s_cwt th in
  onset ← onset_times t mask;
  offset ← offset_times t mask;
  '(df, _) ← format_rois len_s fs (0, 0) false None onset offset;
  mret (length (rows df)).


(** ** Interleaved sequences

    The transitions of a mask alternate; the onsets and offsets are the
    values at the even and at the odd places of the sequence of all
    transition times, or the other way round. *)

Fixpoint evens {A} (l : list A) : list A :=
  match l with
  | [] => []
  | x :: l' => x :: match l' with [] => [] | _ :: l'' => evens l'' end
  end.

Definition odds {A} (l : list A) : list A := evens (tail l).

(** Each value is below the next one. *)
Definition increasing (l : list Q) : Prop :=
  forall j x y, l !! j = Some x -> l !! S j = Some y -> x < y.

Definition increasing_nat (l : list nat) : Prop :=
  forall j a b, l !! j = Some a -> l !! S j = Some b -> (a < b)%nat.

(** A strictly increasing time grid. *)
Definition grid_increasing (t : list Q) : Prop :=
  forall i j x y, (i < j)%nat -> t !! i = Some x -> t !! j = Some y -> x < y.

(** All the transitions of a mask: the indices where the forward
    difference is not zero. *)
Definition transitions (k : nat) (mask : list bool) : list nat :=
  where_from k (fun d => negb (d =? 0)%Z) (np_diff (astype_int mask)).

(** ** The specification's reading of the windowed energy *)

(** Window [k] of a signal cut in consecutive windows of [wl] samples. *)
Definition window (k : nat) (wl : Z) (p : list Q) : list Q :=
  take (Z.to_nat wl) (drop (k * Z.to_nat wl) p).

(** The sum of the squared samples. *)
Fixpoint sum_squares (w : list Q) : Q :=
  match w with
  | [] => 0
  | x :: w' => x * x + sum_squares w'
  end.


(** ** Callee instances that pass the data through

    A filter of one tap of value 1 and a transform that returns the
    series it is given: with them the repository's own steps can be run
    end to end on a signal chosen by its energies. *)

Module Passthrough.

Definition kaiserord (ripple width : Q) : result (Z * Q) := Ok (1%Z, 0).

Definition firwin (numtaps : Z) (cutoff : Q * Q) (beta nyq : Q)
    (pass_zero : bool) : result (list Q) := Ok [1].

Definition cwt_ricker (data : list Q) (width : Z) : result (list Q) := Ok data.

End Passthrough.

(** The rows of a returned table, in lowest terms. *)
Definition rows_of (r : result (DataFrame * list effect)) : option (list (list Q)) :=
  match r with
  | Ok (df, _) => Some ((fun row : list Q => Qred <$> row) <$> rows df)
  | Raise _ => None
  end.


(** * Properties *)

(** ** The error monad and comparisons *)

Lemma bind_ok {A B} (m : result A) (k : A -> result B) (b : B) :
  m ≫= k = Ok b <-> exists a, m = Ok a /\ k a = Ok b.
Proof.
  destruct m as [a|e]; simpl; split.
  - intros H. exists a. auto.
  - intros (a' & Ha & Hk). inversion Ha. subst. exact Hk.
  - discriminate.
  - intros (a' & Ha & _). discriminate.
Qed.

Lemma bind_ret_l {A B} (a : A) (k : A -> result B) : Ok a ≫= k = k a.
Proof. reflexivity. Qed.

Lemma bind_raise {A B} (m : result A) (k : A -> result B) (e : exn) :
  m ≫= k = Raise e <->
  m = Raise e \/ exists a, m = Ok a /\ k a = Raise e.
Proof.
  destruct m as [a|e']; simpl; split.
  - intros H. right. exists a. auto.
  - intros [H|(a' & Ha & Hk)]; [discriminate|]. inversion Ha. subst. exact Hk.
  - intros H. left. congruence.
  - intros [H|(a' & Ha & _)]; [congruence|discriminate].
Qed.

Lemma Qgtb_lt (x y : Q) : Qgtb x y = true <-> y < x.
Proof.
  unfold Qgtb. rewrite negb_true_iff. split.
  - intros H. apply Qnot_le_lt. intros Hle.
    apply Qle_bool_iff in Hle. congruence.
  - intros H. destruct (Qle_bool x y) eqn:E; [|reflexivity].
    apply Qle_bool_iff in E. exfalso. apply (Qlt_not_le _ _ H). exact E.
Qed.

Lemma Qgtb_le (x y : Q) : Qgtb x y = false <-> x <= y.
Proof.
  unfold Qgtb. rewrite negb_false_iff. apply Qle_bool_iff.
Qed.


(** ** The band filter *)

(** Both directions of "the exception comes from one of the four
    calls", once the calls made so far are known. *)
Ltac callee_cases :=
  split;
  [ intros H;
    first
      [ discriminate H
      | left; congruence
      | right; left; eexists; split; [reflexivity | congruence]
      | right; right; left; do 3 eexists;
        split; [reflexivity | split; [eassumption | congruence]]
      | right; right; right; do 4 eexists;
        split; [reflexivity
               | split; [eassumption | split; [eassumption | congruence]]] ]
  | intros [H|[(?&H&?)|[(?&?&?&H&?&?)|(?&?&?&?&H&?&?&?)]]]; congruence ].

Section SincProperties.

Variable kaiserord : Q -> Q -> result (Z * Q).
Variable firwin : Z -> Q * Q -> Q -> Q -> bool -> result (list Q).
Variable lfilter : list Q -> Q -> list Q -> result (list Q).

(** The value that line 37 computes and drops is odd. *)
Lemma round_odd_odd (numtaps : Z) : Z.odd (round_odd numtaps) = true.
Proof.
  unfold round_odd.
  rewrite Z.add_comm, Z.mul_comm, Z.odd_add_mul_2. reflexivity.
Qed.

(** C9: the expression statement [np.ceil(numtaps-1) // 2 * 2 + 1] of
    [sinc] is dead code: on every input [sinc] returns what the
    variant without that statement returns, since the value is never
    bound. *)
Theorem C9_rounding_is_dead_code (s : list Q) (cutoff : Q * Q)
    (fs atten transition_bw : Q) (bandpass : bool) :
  sinc kaiserord firwin lfilter s cutoff fs atten transition_bw bandpass
  = sinc_without_rounding kaiserord firwin lfilter s cutoff fs atten
      transition_bw bandpass.
Proof.
  unfold sinc, sinc_without_rounding.
  destruct (pydiv _ _) as [w|e]; [|reflexivity]. simpl.
  destruct (kaiserord atten w) as [[numtaps beta]|e]; reflexivity.
Qed.

(** [sinc] raises [e] exactly when the division by [0.5*fs] raises
[e], or [kaiserord] does on the normalised width, or [firwin] does on
the unchanged band, or [lfilter] does on the designed taps. *)
Lemma sinc_raises_only_through_callees (s : list Q) (cutoff : Q * Q)
    (fs atten transition_bw : Q) (bandpass : bool) (e : exn) :
  sinc kaiserord firwin lfilter s cutoff fs atten transition_bw bandpass
    = Raise e
  <->
  let width := (cutoff.2 - cutoff.1) * transition_bw in
  pydiv width (0.5 * fs) = Raise e
  \/ (exists w, pydiv width (0.5 * fs) = Ok w
                /\ kaiserord atten w = Raise e)
  \/ (exists w numtaps beta,
        pydiv width (0.5 * fs) = Ok w
        /\ kaiserord atten w = Ok (numtaps, beta)
        /\ firwin numtaps cutoff beta (0.5 * fs) (negb bandpass) = Raise e)
  \/ (exists w numtaps beta taps,
        pydiv width (0.5 * fs) = Ok w
        /\ kaiserord atten w = Ok (numtaps, beta)
        /\ firwin numtaps cutoff beta (0.5 * fs) (negb bandpass) = Ok taps
        /\ lfilter taps 1 s = Raise e).
Proof.
  unfold sinc. cbv zeta.
  destruct (pydiv _ _) as [w|e1]; simpl; [|callee_cases].
  destruct (kaiserord atten w) as [[numtaps beta]|e2] eqn:Hk; simpl;
    [|callee_cases].
  destruct (firwin numtaps cutoff beta (0.5 * fs) (negb bandpass))
    as [taps|e3] eqn:Hf; simpl; [|callee_cases].
  destruct (lfilter taps 1 s) as [y|e4] eqn:Hl; simpl; callee_cases.
Qed.

End SincProperties.

(** ** The boundary reconciler *)

Lemma head_is_Some {A} (l : list A) : l <> [] -> exists x, head l = Some x.
Proof. destruct l as [|x l]; [congruence|]. intros _. exists x. reflexivity. Qed.

Lemma last_is_Some_ne {A} (l : list A) : l <> [] -> exists x, last l = Some x.
Proof.
  intros H. destruct (last l) as [x|] eqn:E; [exists x; reflexivity|].
  apply last_None in E. congruence.
Qed.

Lemma last_cons_ne {A} (x : A) (l : list A) : l <> [] -> last (x :: l) = last l.
Proof.
  intros H. rewrite last_cons. destruct (last_is_Some_ne l H) as [y ->].
  reflexivity.
Qed.

(** The reconciler on non-empty sequences, in closed form. *)
Lemma corresp_onset_offset_eq (onset offset : list Q)
    (tmin tmax on0 off0 onl offl : Q) :
  head onset = Some on0 -> head offset = Some off0 ->
  last onset = Some onl -> last offset = Some offl ->
  corresp_onset_offset onset offset tmin tmax
  = Ok (if Qgtb on0 off0 then tmin :: onset else onset,
        if Qgtb onl offl then offset ++ [tmax] else offset).
Proof.
  intros Hon Hoff Honl Hoffl. unfold corresp_onset_offset.
  rewrite Hon, Hoff. simpl.
  assert (Hne : onset <> []) by (intros ->; discriminate).
  assert (Hl : last (if Qgtb on0 off0 then tmin :: onset else onset)
               = Some onl).
  { destruct (Qgtb on0 off0); [rewrite last_cons_ne by exact Hne|]; exact Honl. }
  rewrite Hl, Hoffl. reflexivity.
Qed.

Lemma corresp_onset_offset_ok (onset offset : list Q) (tmin tmax : Q) :
  onset <> [] -> offset <> [] ->
  exists r, corresp_onset_offset onset offset tmin tmax = Ok r.
Proof.
  intros Hon Hoff.
  destruct (head_is_Some _ Hon) as [on0 H1].
  destruct (head_is_Some _ Hoff) as [off0 H2].
  destruct (last_is_Some_ne _ Hon) as [onl H3].
  destruct (last_is_Some_ne _ Hoff) as [offl H4].
  eexists. apply (corresp_onset_offset_eq _ _ _ _ _ _ _ _ H1 H2 H3 H4).
Qed.

(** The guard of line 153 is false exactly on two non-empty sequences. *)
Lemma size_guard_false (onset offset : list Q) :
  onset <> [] -> offset <> [] ->
  ((length onset =? 0) || (length offset =? 0))%nat = false.
Proof.
  intros Hon Hoff. destruct onset; [congruence|]. destruct offset; [congruence|].
  reflexivity.
Qed.

Lemma size_guard_true (onset offset : list Q) :
  onset = [] \/ offset = [] ->
  ((length onset =? 0) || (length offset =? 0))%nat = true.
Proof.
  intros [-> | ->]; [reflexivity|]. apply orb_true_r.
Qed.

Lemma pydiv_ok (x y : Q) : ~ y == 0 -> pydiv x y = Ok (x / y).
Proof.
  intros H. unfold pydiv. destruct (Qeq_bool y 0) eqn:E; [|reflexivity].
  apply Qeq_bool_iff in E. contradiction.
Qed.

(** The call of line 163: [tmin = 0] and [tmax = len(s)/fs]. *)
Lemma format_rois_call_site (len_s : nat) (fs : Q) (flims : Q * Q)
    (save_df : bool) (savefilename : option string) (onset offset : list Q) :
  onset <> [] -> offset <> [] -> ~ fs == 0 ->
  format_rois len_s fs flims save_df savefilename onset offset
  = '(on', off') ← corresp_onset_offset onset offset 0
                      (inject_Z (Z.of_nat len_s) / fs);
    build_table flims save_df (default "rois.csv"%string savefilename) on' off'.
Proof.
  intros Hon Hoff Hfs. unfold format_rois.
  rewrite size_guard_false by assumption.
  rewrite pydiv_ok by exact Hfs. reflexivity.
Qed.

(** C5: on non-empty sequences [corresp_onset_offset] puts [tmin] in
    front of the onsets exactly when the first onset is after the first
    offset, and [tmax] behind the offsets exactly when the last onset
    is after the last offset; otherwise a sequence is returned
    unchanged.  The call in [find_rois_cwt] passes [tmin = 0] and
    [tmax = len(s)/fs]. *)
Theorem C5_synthetic_boundaries (onset offset : list Q)
    (tmin tmax on0 off0 onl offl : Q) :
  head onset = Some on0 -> head offset = Some off0 ->
  last onset = Some onl -> last offset = Some offl ->
  (exists on' off',
      corresp_onset_offset onset offset tmin tmax = Ok (on', off')
      /\ (off0 < on0 -> on' = tmin :: onset)
      /\ (on0 <= off0 -> on' = onset)
      /\ (offl < onl -> off' = offset ++ [tmax])
      /\ (onl <= offl -> off' = offset))
  /\ (forall len_s fs flims save_df savefilename,
         ~ fs == 0 ->
         format_rois len_s fs flims save_df savefilename onset offset
         = '(on', off') ← corresp_onset_offset onset offset 0
                             (inject_Z (Z.of_nat len_s) / fs);
           build_table flims save_df
             (default "rois.csv"%string savefilename) on' off').
Proof.
  intros Hon Hoff Honl Hoffl. split.
  - eexists _, _. split.
    + apply (corresp_onset_offset_eq _ _ _ _ _ _ _ _ Hon Hoff Honl Hoffl).
    + repeat split; intros H.
      * apply Qgtb_lt in H. rewrite H. reflexivity.
      * apply Qgtb_le in H. rewrite H. reflexivity.
      * apply Qgtb_lt in H. rewrite H. reflexivity.
      * apply Qgtb_le in H. rewrite H. reflexivity.
  - intros len_s fs flims save_df savefilename Hfs.
    apply format_rois_call_site; [| |exact Hfs].
    + intros ->. discriminate.
    + intros ->. discriminate.
Qed.

Lemma C5_synthetic_boundaries_witness :
  (exists on' off',
      corresp_onset_offset [4; 9] [2; 6] 0 10 = Ok (on', off')
      /\ ((2 : Q) < 4 -> on' = [0; 4; 9])
      /\ ((4 : Q) <= 2 -> on' = [4; 9])
      /\ ((6 : Q) < 9 -> off' = [2; 6; 10])
      /\ ((9 : Q) <= 6 -> off' = [2; 6]))
  /\ (forall len_s fs flims save_df savefilename,
         ~ fs == 0 ->
         format_rois len_s fs flims save_df savefilename [4; 9] [2; 6]
         = '(on', off') ← corresp_onset_offset [4; 9] [2; 6] 0
                             (inject_Z (Z.of_nat len_s) / fs);
           build_table flims save_df
             (default "rois.csv"%string savefilename) on' off').
Proof.
  apply (C5_synthetic_boundaries [4; 9] [2; 6] 0 10 4 2 9 6); reflexivity.
Defined.

Lemma build_table_not_IndexError (flims : Q * Q) (save_df : bool)
    (file : string) (onset offset : list Q) :
  build_table flims save_df file onset offset <> Raise IndexError.
Proof.
  unfold build_table, np_transpose4.
  destruct (_ && _)%bool; simpl; discriminate.
Qed.

(** C10: [corresp_onset_offset] reads [onset[0]], [onset[-1]],
    [offset[0]] and [offset[-1]] unchecked, so an empty sequence raises
    [IndexError]; [find_rois_cwt] calls it only behind the guard of
    line 153, where both sequences are non-empty, so that every read is
    defined and lines 153 to 172 never raise [IndexError]. *)
Theorem C10_guarded_indexing (onset offset : list Q) (tmin tmax : Q) :
  corresp_onset_offset [] offset tmin tmax = Raise IndexError
  /\ corresp_onset_offset onset [] tmin tmax = Raise IndexError
  /\ (onset <> [] -> offset <> [] ->
      exists r, corresp_onset_offset onset offset tmin tmax = Ok r)
  /\ (forall len_s fs flims save_df savefilename,
         (onset = [] \/ offset = [] ->
          exists eff, format_rois len_s fs flims save_df savefilename
                        onset offset = Ok (empty_frame, eff))
         /\ format_rois len_s fs flims save_df savefilename onset offset
            <> Raise IndexError).
Proof.
  split; [reflexivity|]. split.
  { unfold corresp_onset_offset. destruct (head onset); reflexivity. }
  split; [apply corresp_onset_offset_ok|].
  intros len_s fs flims save_df savefilename. split.
  - intros H. unfold format_rois. rewrite (size_guard_true _ _ H).
    eexists. reflexivity.
  - unfold format_rois.
    destruct ((length onset =? 0) || (length offset =? 0))%nat eqn:G;
      [discriminate|].
    apply orb_false_iff in G. destruct G as [G1 G2].
    apply Nat.eqb_neq in G1, G2.
    assert (Hon : onset <> []) by (intros ->; apply G1; reflexivity).
    assert (Hoff : offset <> []) by (intros ->; apply G2; reflexivity).
    unfold pydiv. destruct (Qeq_bool fs 0); [discriminate|]. simpl.
    destruct (corresp_onset_offset_ok onset offset 0
                (inject_Z (Z.of_nat len_s) / fs) Hon Hoff) as [[on' off'] ->].
    simpl. apply build_table_not_IndexError.
Qed.

Lemma C10_guarded_indexing_witness :
  (exists r, corresp_onset_offset [4] [2] 0 4 = Ok r)
  /\ format_rois 4 1 (2000, 8000) false None [4] [2] <> Raise IndexError.
Proof.
  destruct (C10_guarded_indexing [4] [2] 0 4) as (_ & _ & H3 & H4).
  split.
  - apply H3; discriminate.
  - apply (H4 4%nat 1 (2000, 8000) false None).
Defined.

(** ** The entry point *)

Section FindRoisProperties.

Variable kaiserord : Q -> Q -> result (Z * Q).
Variable firwin : Z -> Q * Q -> Q -> Q -> bool -> result (list Q).
Variable lfilter : list Q -> Q -> list Q -> result (list Q).
Variable cwt_ricker : list Q -> Z -> result (list Q).

(** C6: when the extracted onset sequence or offset sequence is
    empty, [find_rois_cwt] returns normally, with the empty table of
    zero rows; it prints the notice, writes the header-less file if
    asked, and plots no rectangle if asked to display. *)
Theorem C6_no_detection_is_empty_table (s : list Q) (fs : Q)
    (flims : Q * Q) (tlen th : Q) (display save_df : bool)
    (savefilename : option string) (t s_cwt onset offset : list Q) :
  smoothed kaiserord firwin lfilter cwt_ricker s fs flims tlen
    = Ok (t, s_cwt) ->
  onset_times t (segments_bin s_cwt th) = Ok onset ->
  offset_times t (segments_bin s_cwt th) = Ok offset ->
  onset = [] \/ offset = [] ->
  find_rois_cwt kaiserord firwin lfilter cwt_ricker s fs flims tlen th
    display save_df savefilename
  = Ok (empty_frame,
        Print "Warning: No detection found"
          :: (if save_df
              then [ToCsv (default "rois.csv"%string savefilename) false
                      empty_frame]
              else [])
          ++ (if display then [Plot s_cwt th []] else []))
  /\ rows empty_frame = [].
Proof.
  intros Hs Hon Hoff Hempty. split; [|reflexivity].
  unfold find_rois_cwt. rewrite Hs. simpl. rewrite Hon. simpl.
  rewrite Hoff. simpl. unfold format_rois.
  rewrite (size_guard_true _ _ Hempty). reflexivity.
Qed.

End FindRoisProperties.

(** A silent signal: nothing exceeds the threshold. *)
Lemma C6_no_detection_is_empty_table_witness :
  find_rois_cwt Scipy.kaiserord Scipy.firwin Scipy.lfilter Scipy.cwt_ricker
    (replicate 17 0) 40 (5, 15) 1 0 true true None
  = Ok (empty_frame,
        [Print "Warning: No detection found";
         ToCsv "rois.csv" false empty_frame;
         Plot (replicate 9 0) 0 []])
  /\ rows empty_frame = [].
Proof.
  refine (C6_no_detection_is_empty_table Scipy.kaiserord Scipy.firwin
            Scipy.lfilter Scipy.cwt_ricker (replicate 17 0) 40 (5, 15) 1 0
            true true None _ _ [] [] _ _ _ _).
  - vm_compute. reflexivity.
  - vm_compute. reflexivity.
  - vm_compute. reflexivity.
  - left. reflexivity.
Defined.

(** ** Thresholding and edge extraction *)

Lemma segments_bin_lookup (s_cwt : list Q) (th : Q) (i : nat) :
  segments_bin s_cwt th !! i = (fun x => Qgtb x th) <$> s_cwt !! i.
Proof. unfold segments_bin. apply list_lookup_fmap. Qed.

Lemma filter_seq_ext (P R : nat -> Prop)
    `{!forall i, Decision (P i)} `{!forall i, Decision (R i)} (k n : nat) :
  (forall i, k <= i -> P i <-> R i)%nat ->
  filter P (seq k n) = filter R (seq k n).
Proof.
  revert k. induction n as [|n IH]; intros k Hext; simpl; [reflexivity|].
  rewrite !filter_cons.
  assert (Hk : P k <-> R k) by (apply Hext; lia).
  assert (Hrest : filter P (seq (S k) n) = filter R (seq (S k) n)).
  { apply IH. intros i Hi. apply Hext. lia. }
  destruct (decide (P k)), (decide (R k)); try tauto; congruence.
Qed.

(** [np.where] lists the indices that satisfy the condition. *)
Lemma where_from_filter (p : Z -> bool) (d : list Z) (k : nat) :
  where_from k p d
  = filter (fun i => from_option p false (d !! (i - k)%nat) = true)
      (seq k (length d)).
Proof.
  revert k. induction d as [|x d IH]; intros k; simpl; [reflexivity|].
  rewrite filter_cons, Nat.sub_diag. simpl.
  assert (Hrest :
    filter (fun i => from_option p false ((x :: d) !! (i - k)%nat) = true)
      (seq (S k) (length d))
    = filter (fun i => from_option p false (d !! (i - S k)%nat) = true)
      (seq (S k) (length d))).
  { apply filter_seq_ext. intros i Hi.
    replace (i - k)%nat with (S (i - S k)) by lia. reflexivity. }
  rewrite Hrest, <- IH.
  destruct (p x); destruct (decide _); congruence.
Qed.

(** The forward difference of a 0/1 encoding: [mask[i+1] - mask[i]]. *)
Lemma np_diff_lookup (a : list Z) (i : nat) :
  np_diff a !! i
  = (y ← a !! S i; x ← a !! i; Some (y - x)%Z).
Proof.
  unfold np_diff. revert i. induction a as [|x a IH]; intros i; [reflexivity|].
  destruct a as [|y a]; [destruct i; reflexivity|].
  destruct i as [|i]; [reflexivity|].
  simpl in *. apply IH.
Qed.

Lemma np_diff_mask_range (mask : list bool) (i : nat) (x : Z) :
  np_diff (astype_int mask) !! i = Some x -> x = (-1)%Z \/ x = 0%Z \/ x = 1%Z.
Proof.
  rewrite np_diff_lookup. unfold astype_int. rewrite !list_lookup_fmap.
  destruct (mask !! S i) as [[]|]; simpl; [| |discriminate];
    (destruct (mask !! i) as [[]|]; simpl; [| |discriminate]);
    intros [= <-]; auto.
Qed.

Lemma np_where_pos_mask (mask : list bool) :
  np_where (fun d => (d >? 0)%Z) (np_diff (astype_int mask))
  = diff_indices 1 (np_diff (astype_int mask)).
Proof.
  unfold np_where, diff_indices. rewrite where_from_filter.
  apply filter_seq_ext. intros i _. rewrite Nat.sub_0_r.
  destruct (np_diff (astype_int mask) !! i) as [x|] eqn:E; simpl.
  - destruct (np_diff_mask_range _ _ _ E) as [-> | [-> | ->]];
      split; (discriminate || reflexivity).
  - split; discriminate.
Qed.

Lemma np_where_neg_mask (mask : list bool) :
  np_where (fun d => (d <? 0)%Z) (np_diff (astype_int mask))
  = diff_indices (-1) (np_diff (astype_int mask)).
Proof.
  unfold np_where, diff_indices. rewrite where_from_filter.
  apply filter_seq_ext. intros i _. rewrite Nat.sub_0_r.
  destruct (np_diff (astype_int mask) !! i) as [x|] eqn:E; simpl.
  - destruct (np_diff_mask_range _ _ _ E) as [-> | [-> | ->]];
      split; (discriminate || reflexivity).
  - split; discriminate.
Qed.

(** C8: the mask is the strict comparison [s_cwt > th]; the onset times
    are the values [t[i] + t[0]] at the indices [i] where the forward
    difference of the mask's integer encoding is [+1], the offset times
    those where it is [-1]. *)
Theorem C8_mask_and_edges (s_cwt t : list Q) (th : Q) :
  let mask := segments_bin s_cwt th in
  length mask = length s_cwt
  /\ (forall i x, s_cwt !! i = Some x ->
        exists b, mask !! i = Some b /\ (b = true <-> th < x))
  /\ (forall i, np_diff (astype_int mask) !! i
                = (y ← mask !! S i; x ← mask !! i;
                   Some (Z.b2z y - Z.b2z x)%Z))
  /\ onset_times t mask = edge_times_spec 1 t mask
  /\ offset_times t mask = edge_times_spec (-1) t mask.
Proof.
  intros mask. split; [apply length_fmap|]. split.
  { intros i x Hx. exists (Qgtb x th). split.
    - unfold mask. rewrite segments_bin_lookup, Hx. reflexivity.
    - apply Qgtb_lt. }
  split.
  { intros i. rewrite np_diff_lookup. unfold astype_int.
    rewrite !list_lookup_fmap.
    destruct (mask !! S i); simpl; [|reflexivity].
    destruct (mask !! i); reflexivity. }
  unfold onset_times, offset_times, edge_times, edge_times_spec.
  rewrite np_where_pos_mask, np_where_neg_mask. split; reflexivity.
Qed.

Lemma C8_mask_and_edges_witness :
  let mask := segments_bin [0; 5; 3; 5; 0] 4 in
  mask = [false; true; false; true; false]
  /\ onset_times [1; 3; 5; 7; 9] mask = Ok [2; 6]
  /\ edge_times_spec 1 [1; 3; 5; 7; 9] mask = Ok [2; 6]
  /\ offset_times [1; 3; 5; 7; 9] mask = Ok [4; 8]
  /\ exists b, mask !! 1%nat = Some b /\ (b = true <-> 4 < 5).
Proof.
  destruct (C8_mask_and_edges [0; 5; 3; 5; 0] [1; 3; 5; 7; 9] 4)
    as (_ & Hm & _ & Hon & Hoff).
  cbv zeta. split; [reflexivity|]. split; [reflexivity|].
  split; [rewrite <- Hon; reflexivity|]. split; [reflexivity|].
  apply (Hm 1%nat 5). reflexivity.
Defined.

Lemma Qgtb_antitone (x th1 th2 : Q) :
  th1 <= th2 -> Qgtb x th2 = true -> Qgtb x th1 = true.
Proof.
  intros Hle H. apply Qgtb_lt. apply Qgtb_lt in H.
  apply Qle_lt_trans with th2; assumption.
Qed.

(** C3 (amended): raising the threshold on a fixed smoothed series
    never activates a sample: the mask at the higher threshold is
    contained in the mask at the lower one, so the number of active
    samples does not increase. *)
Theorem C3_raising_threshold_shrinks_mask (s_cwt : list Q) (th1 th2 : Q) :
  th1 <= th2 ->
  (forall i, segments_bin s_cwt th2 !! i = Some true ->
             segments_bin s_cwt th1 !! i = Some true)
  /\ (active_samples (segments_bin s_cwt th2)
      <= active_samples (segments_bin s_cwt th1))%nat.
Proof.
  intros Hle. split.
  - intros i. rewrite !segments_bin_lookup.
    destruct (s_cwt !! i) as [x|]; simpl; [|discriminate].
    intros [= H]. f_equal. apply (Qgtb_antitone _ _ _ Hle H).
  - unfold active_samples, segments_bin.
    induction s_cwt as [|x s IH]; [reflexivity|].
    rewrite !fmap_cons, !filter_cons.
    destruct (decide (Qgtb x th2 = true)) as [H2|H2].
    + rewrite (Qgtb_antitone _ _ _ Hle H2).
      destruct (decide (true = true)); [|congruence].
      rewrite !length_cons. lia.
    + destruct (decide (Qgtb x th1 = true)); rewrite ?length_cons; lia.
Qed.

Lemma C3_raising_threshold_shrinks_mask_witness :
  (forall i, segments_bin [0; 5; 3; 5; 0] 4 !! i = Some true ->
             segments_bin [0; 5; 3; 5; 0] 1 !! i = Some true)
  /\ Nat.le (active_samples (segments_bin [0; 5; 3; 5; 0] 4))
            (active_samples (segments_bin [0; 5; 3; 5; 0] 1)).
Proof.
  apply (C3_raising_threshold_shrinks_mask [0; 5; 3; 5; 0] 1 4).
  vm_compute. discriminate.
Defined.

(** C3, as stated, fails: on the series 0, 5, 3, 5, 0 the threshold 1
    gives one active run, hence one onset/offset pair, and the higher
    threshold 4 splits it in two. *)
Lemma C3_raising_threshold_can_split :
  let t := [1; 3; 5; 7; 9] in
  let s_cwt := [0; 5; 3; 5; 0] in
  (1 : Q) <= 4
  /\ onset_times t (segments_bin s_cwt 1) = Ok [2]
  /\ offset_times t (segments_bin s_cwt 1) = Ok [8]
  /\ onset_times t (segments_bin s_cwt 4) = Ok [2; 6]
  /\ offset_times t (segments_bin s_cwt 4) = Ok [4; 8]
  /\ detected_pairs t s_cwt 1 10 1 = Ok 1%nat
  /\ detected_pairs t s_cwt 4 10 1 = Ok 2%nat
  /\ ~ (2 <= 1)%nat.
Proof.
  cbv zeta. split; [vm_compute; discriminate|].
  repeat split; try reflexivity. lia.
Qed.

(** ** The energy reducer *)

(** C2, evaluated where the claim fails: a signal of four samples with
    window length two is already a whole number of windows, yet
    [wl - len(s) % wl] is [wl], not 0, and a full window of reflected
    samples is appended. *)
Theorem C2_full_window_appended_on_multiple :
  (4 mod 2 = 0)%Z
  /\ pad_amount 4 2 = Ok 2%Z
  /\ padded [1; 2; 3; 4] 2 = Ok [1; 2; 3; 4; 3; 2]
  /\ padded [1; 2; 3; 4] 2 <> Ok [1; 2; 3; 4].
Proof.
  repeat split; try reflexivity. discriminate.
Qed.

Lemma pymod_ok (a b : Z) : (0 < b)%Z -> pymod a b = Ok (a mod b)%Z.
Proof.
  intros H. unfold pymod. destruct (b =? 0)%Z eqn:E; [|reflexivity].
  apply Z.eqb_eq in E. lia.
Qed.

(** The pad amount lies in [1, wl] and completes the last window. *)
Lemma pad_amount_spec (n wl : Z) :
  (0 < wl)%Z ->
  exists k, pad_amount n wl = Ok k
            /\ (0 < k <= wl)%Z /\ ((n + k) mod wl = 0)%Z.
Proof.
  intros H. exists (wl - n mod wl)%Z. unfold pad_amount.
  rewrite pymod_ok by exact H. split; [reflexivity|].
  pose proof (Z.mod_pos_bound n wl H) as Hb. split; [lia|].
  replace (n + (wl - n mod wl))%Z with (n - n mod wl + 1 * wl)%Z by lia.
  rewrite Z.mod_add by lia.
  rewrite Zminus_mod, Zmod_mod, Z.sub_diag. apply Z.mod_0_l. lia.
Qed.

(** On a signal that is a whole number of windows the pad amount is a
    full window. *)
Lemma pad_amount_multiple (n wl : Z) :
  (0 < wl)%Z -> (n mod wl = 0)%Z -> pad_amount n wl = Ok wl.
Proof.
  intros H Hm. unfold pad_amount. rewrite pymod_ok by exact H.
  rewrite Hm. simpl. f_equal. lia.
Qed.

Lemma tail_length {A} (l : list A) : length (tail l) = (length l - 1)%nat.
Proof. destruct l; simpl; lia. Qed.

Lemma reflect_tail_length (fuel : nat) (a : list Q) (k : nat) :
  (2 <= length a)%nat -> (k <= fuel)%nat ->
  length (reflect_tail fuel a k) = (length a + k)%nat.
Proof.
  revert a k. induction fuel as [|fuel IH]; intros a k Ha Hk.
  - simpl. lia.
  - destruct k as [|k]; [simpl; lia|].
    cbn [reflect_tail]. set (chunk := (length a - 1) `min` S k).
    assert (Hc : (1 <= chunk <= S k)%nat) by (unfold chunk; lia).
    assert (Hlen : length (a ++ take chunk (tail (reverse a)))
                   = (length a + chunk)%nat).
    { rewrite length_app, length_take, tail_length, length_reverse.
      unfold chunk. lia. }
    rewrite IH; [rewrite Hlen; lia | rewrite Hlen; lia | lia].
Qed.

Lemma reflect_ext_length (a : list Q) (k : nat) :
  (2 <= length a)%nat -> length (reflect_ext a k) = k.
Proof.
  intros Ha. unfold reflect_ext.
  rewrite length_drop, reflect_tail_length by lia. lia.
Qed.

(** Reflection padding succeeds on a non-empty array and adds exactly
    the requested numbers of values around it. *)
Lemma np_pad_reflect_ok (a : list Q) (before after : Z) :
  a <> [] -> (0 <= before)%Z -> (0 <= after)%Z ->
  exists ext_l ext_r,
    np_pad_reflect a before after = Ok (ext_l ++ a ++ ext_r)
    /\ length ext_l = Z.to_nat before /\ length ext_r = Z.to_nat after.
Proof.
  intros Ha Hb Hafter. unfold np_pad_reflect.
  assert (G : ((before <? 0) || (after <? 0))%Z = false).
  { apply orb_false_iff. split; apply Z.ltb_ge; assumption. }
  rewrite G. destruct a as [|x [|y a]]; [congruence| |].
  - eexists _, _. split; [reflexivity|]. rewrite !length_replicate. auto.
  - eexists _, _. split; [reflexivity|].
    rewrite length_reverse, !reflect_ext_length; [auto| |].
    + simpl. lia.
    + rewrite length_reverse. simpl. lia.
Qed.

(** The padded signal starts with the signal and its length is a whole
    number of windows. *)
Lemma padded_ok (s : list Q) (wl : Z) :
  s <> [] -> (0 < wl)%Z ->
  exists k ext,
    pad_amount (Z.of_nat (length s)) wl = Ok k
    /\ padded s wl = Ok (s ++ ext)
    /\ Z.of_nat (length ext) = k
    /\ (Z.of_nat (length (s ++ ext)) mod wl = 0)%Z.
Proof.
  intros Hs Hwl.
  destruct (pad_amount_spec (Z.of_nat (length s)) wl Hwl)
    as (k & Hk & Hrange & Hmod).
  destruct (np_pad_reflect_ok s 0 k Hs) as (l & r & Hp & Hl & Hr); [lia..|].
  destruct l; [|discriminate]. simpl in Hp.
  exists k, r. split; [exact Hk|]. split.
  - unfold padded. rewrite Hk. exact Hp.
  - split; [lia|]. rewrite length_app.
    replace (Z.of_nat (length s + length r)) with (Z.of_nat (length s) + k)%Z
      by lia.
    exact Hmod.
Qed.

Lemma py_int_div (a b : Z) :
  (0 <= a)%Z -> (0 < b)%Z ->
  py_int (Some (inject_Z a / inject_Z b)) = Ok (a / b)%Z.
Proof.
  intros Ha Hb. destruct b as [|b|b]; try lia.
  unfold py_int, Qdiv, Qmult, Qinv, inject_Z. cbn [Qnum Qden].
  rewrite Z.mul_1_r, Pos.mul_1_l. f_equal.
  apply Z.quot_div_nonneg; lia.
Qed.

Lemma chunks_length (rows cols : nat) (a : list Q) :
  length (chunks rows cols a) = rows.
Proof.
  revert a. induction rows as [|rows IH]; intros a; simpl; [reflexivity|].
  rewrite IH. reflexivity.
Qed.

(** Row [k] of the reshaped array is window [k] of the flat one. *)
Lemma chunks_lookup (rows cols : nat) (a : list Q) (k : nat) :
  (k < rows)%nat ->
  chunks rows cols a !! k = Some (take cols (drop (k * cols) a)).
Proof.
  revert a k. induction rows as [|rows IH]; intros a k Hk; [lia|].
  destruct k as [|k]; simpl.
  - reflexivity.
  - rewrite IH by lia. rewrite drop_drop. reflexivity.
Qed.

Lemma seq_fmap_lookup {B} (f : nat -> B) (n k : nat) :
  (k < n)%nat -> (f <$> seq 0 n) !! k = Some (f k).
Proof.
  intros H. rewrite list_lookup_fmap, lookup_seq_lt by exact H. reflexivity.
Qed.

Lemma Qsum_squares (w : list Q) :
  Qsum ((fun x => x ^ 2) <$> w) == sum_squares w.
Proof.
  induction w as [|x w IH]; [reflexivity|].
  rewrite fmap_cons. cbn [Qsum foldr sum_squares].
  fold (Qsum ((fun x => x ^ 2) <$> w)). rewrite IH.
  apply Qplus_comp; [|reflexivity]. simpl. reflexivity.
Qed.

(** [np.mean] of the squares of [wl] samples is their sum of squares
    over [wl]. *)
Lemma np_mean_squares (w : list Q) (wl : Z) :
  length w = Z.to_nat wl -> (0 < wl)%Z ->
  np_mean ((fun x => x ^ 2) <$> w) == sum_squares w / inject_Z wl.
Proof.
  intros Hlen Hwl. unfold np_mean.
  rewrite length_fmap, Hlen, Z2Nat.id by lia.
  rewrite Qsum_squares. reflexivity.
Qed.

(** C7: for a non-empty signal, a positive window length and a non-zero
    sampling rate, [energy_windowed] returns one value per window of the
    padded signal.  The windows are consecutive, each of [wl] samples;
    the value of window [k] is the sum of its squared samples divided by
    [wl], and its time stamp is [k*wl/fs + 0.5*wl/fs]. *)
Theorem C7_windowed_mean_square (s : list Q) (wl : Z) (fs : Q) :
  s <> [] -> (0 < wl)%Z -> ~ fs == 0 ->
  exists p time s_rms,
    padded s wl = Ok p
    /\ energy_windowed s wl fs = Ok (time, s_rms)
    /\ Z.of_nat (length p) = (Z.of_nat (length s_rms) * wl)%Z
    /\ length time = length s_rms
    /\ forall k, (k < length s_rms)%nat ->
         length (window k wl p) = Z.to_nat wl
         /\ (exists e,
               s_rms !! k = Some e
               /\ e == sum_squares (window k wl p) / inject_Z wl)
         /\ (exists tk,
               time !! k = Some tk
               /\ tk == inject_Z (Z.of_nat k) * inject_Z wl / fs
                        + 0.5 * inject_Z wl / fs).
Proof.
  intros Hs Hwl Hfs.
  destruct (padded_ok s wl Hs Hwl) as (pad & ext & _ & Hp & _ & Hmod).
  set (p := s ++ ext) in *.
  set (rows := (Z.of_nat (length p) / wl)%Z).
  assert (Hrows : (0 <= rows)%Z) by (apply Z.div_pos; lia).
  assert (Hexact : (rows * wl = Z.of_nat (length p))%Z).
  { unfold rows. rewrite Z.mul_comm. symmetry.
    apply Z_div_exact_full_2; [lia|exact Hmod]. }
  set (sq := (fun x : Q => x ^ 2) <$> p).
  set (s_rms := np_mean <$> chunks (Z.to_nat rows) (Z.to_nat wl) sq).
  set (half := inject_Z wl * 0.5 / fs).
  set (time := (fun k => inject_Z (Z.of_nat k) * inject_Z wl / fs + half)
                 <$> seq 0 (length s_rms)).
  assert (Hlen : length s_rms = Z.to_nat rows).
  { unfold s_rms. rewrite length_fmap, chunks_length. reflexivity. }
  exists p, time, s_rms. split; [exact Hp|]. split.
  { unfold energy_windowed. rewrite Hp, bind_ret_l.
    rewrite length_fmap, py_int_div, bind_ret_l by lia.
    unfold np_reshape. rewrite length_fmap.
    assert (G : ((0 <=? Z.of_nat (length p) / wl)
                 && (0 <=? wl)
                 && (Z.of_nat (length p) / wl * wl
                     =? Z.of_nat (length p)))%Z = true).
    { rewrite !andb_true_iff. repeat split.
      - apply Z.leb_le. exact Hrows.
      - apply Z.leb_le. lia.
      - apply Z.eqb_eq. exact Hexact. }
    rewrite G, bind_ret_l, pydiv_ok by exact Hfs. reflexivity. }
  split; [lia|]. split.
  { unfold time. rewrite length_fmap, length_seq. reflexivity. }
  intros k Hk.
  assert (Hwin : length (window k wl p) = Z.to_nat wl).
  { unfold window. rewrite length_take, length_drop. nia. }
  split; [exact Hwin|]. split.
  - exists (np_mean ((fun x => x ^ 2) <$> window k wl p)). split.
    + unfold s_rms. rewrite list_lookup_fmap, chunks_lookup by lia.
      simpl. unfold sq, window. rewrite <- fmap_drop, <- fmap_take.
      reflexivity.
    + apply np_mean_squares; [exact Hwin|exact Hwl].
  - eexists. split.
    + unfold time. apply seq_fmap_lookup. exact Hk.
    + unfold half, Qdiv. ring.
Qed.

(** Five samples at 10 Hz in windows of two: three windows of the
    padded signal 1, 2, 3, 4, 5, 4; the second holds 3 and 4, with mean
    square (9 + 16) / 2, at the midpoint 0.3 s. *)
Lemma C7_windowed_mean_square_witness :
  exists time s_rms,
    energy_windowed [1; 2; 3; 4; 5] 2 10 = Ok (time, s_rms)
    /\ length s_rms = 3%nat
    /\ (exists e, s_rms !! 1%nat = Some e /\ e == 25 # 2)
    /\ (exists tk, time !! 1%nat = Some tk /\ tk == 3 # 10).
Proof.
  destruct (C7_windowed_mean_square [1; 2; 3; 4; 5] 2 10)
    as (p & time & s_rms & Hp & He & Hlen & _ & Hk);
    [discriminate | lia | vm_compute; discriminate |].
  assert (Ep : p = [1; 2; 3; 4; 5; 4]) by (vm_compute in Hp; congruence).
  subst p.
  assert (H3 : length s_rms = 3%nat) by (simpl in Hlen; lia).
  destruct (Hk 1%nat) as (_ & (e & He1 & Ee) & (tk & Ht1 & Et)); [lia|].
  exists time, s_rms. split; [exact He|]. split; [exact H3|]. split.
  - exists e. split; [exact He1|]. rewrite Ee. reflexivity.
  - exists tk. split; [exact Ht1|]. rewrite Et. reflexivity.
Defined.

(** The same run, evaluated: three windows of the padded signal
    1, 2, 3, 4, 5, 4 at the midpoints 0.1, 0.3 and 0.5 seconds. *)
Example energy_windowed_run :
  (fun r => match r with
            | Ok (time, s_rms) => Some (Qred <$> time, Qred <$> s_rms)
            | Raise _ => None
            end) (energy_windowed [1; 2; 3; 4; 5] 2 10)
  = Some ([1 # 10; 3 # 10; 1 # 2], [5 # 2; 25 # 2; 41 # 2]).
Proof. reflexivity. Qed.

(** ** Alternation of the transitions *)

Lemma list_ind2 {A} (P : list A -> Prop) :
  P [] -> (forall x, P [x]) -> (forall x y l, P l -> P (x :: y :: l)) ->
  forall l, P l.
Proof.
  intros H0 H1 H2.
  assert (H : forall l, P l /\ forall x, P (x :: l)).
  { induction l as [|y l [IH1 IH2]]; [auto|].
    split; [apply IH2|]. intros x. apply H2, IH1. }
  intros l. apply H.
Qed.

Lemma evens_cons {A} (x : A) (l : list A) : evens (x :: l) = x :: odds l.
Proof. destruct l; reflexivity. Qed.

Lemma odds_cons {A} (x : A) (l : list A) : odds (x :: l) = evens l.
Proof. reflexivity. Qed.

Lemma evens_fmap {A B} (f : A -> B) (l : list A) :
  evens (f <$> l) = f <$> evens l.
Proof.
  induction l as [| x | x y l IH] using list_ind2; [reflexivity..|].
  cbn [evens fmap list_fmap] in *. rewrite IH. reflexivity.
Qed.

Lemma odds_fmap {A B} (f : A -> B) (l : list A) :
  odds (f <$> l) = f <$> odds l.
Proof. destruct l as [|x l]; [reflexivity|]. apply evens_fmap. Qed.

Lemma evens_lookup {A} (l : list A) (i : nat) :
  evens l !! i = l !! (2 * i)%nat.
Proof.
  revert i. induction l as [| x | x y l IH] using list_ind2; intros i.
  - reflexivity.
  - destruct i; reflexivity.
  - destruct i as [|i]; [reflexivity|].
    replace (2 * S i)%nat with (S (S (2 * i))) by lia.
    cbn [evens lookup list_lookup]. apply IH.
Qed.

Lemma odds_lookup {A} (l : list A) (i : nat) :
  odds l !! i = l !! (2 * i + 1)%nat.
Proof.
  destruct l as [|x l]; [reflexivity|].
  rewrite odds_cons, evens_lookup.
  replace (2 * i + 1)%nat with (S (2 * i)) by lia. reflexivity.
Qed.

Lemma evens_odds_length {A} (l : list A) :
  Nat.even (length l) = true -> length (evens l) = length (odds l).
Proof.
  induction l as [| x | x y l IH] using list_ind2; intros H.
  - reflexivity.
  - discriminate.
  - rewrite evens_cons, !odds_cons, evens_cons. simpl. f_equal.
    apply IH. exact H.
Qed.

Lemma elem_of_evens_odds {A} (l : list A) (x : A) :
  x ∈ l -> x ∈ evens l \/ x ∈ odds l.
Proof.
  induction l as [| y | y z l IH] using list_ind2.
  - intros H. inversion H.
  - intros H. left. exact H.
  - rewrite evens_cons, !odds_cons, evens_cons.
    rewrite !elem_of_cons. intros [->|[->|H]]; [auto..|].
    destruct (IH H); auto.
Qed.

(** Appending to a sequence of odd length extends its odd places. *)
Lemma evens_odds_snoc {A} (l : list A) (z : A) :
  Nat.odd (length l) = true ->
  evens (l ++ [z]) = evens l /\ odds (l ++ [z]) = odds l ++ [z].
Proof.
  induction l as [| x | x y l IH] using list_ind2; intros H.
  - discriminate.
  - split; reflexivity.
  - destruct (IH H) as [IH1 IH2].
    change ((x :: y :: l) ++ [z]) with (x :: y :: (l ++ [z])).
    rewrite !evens_cons, !odds_cons, !evens_cons, IH1, IH2.
    split; reflexivity.
Qed.

(** The indices [np.where] lists from position [k] on are at least [k]
    and increase. *)
Lemma where_from_ge (p : Z -> bool) (d : list Z) (k i : nat) :
  i ∈ where_from k p d -> (k <= i)%nat.
Proof.
  revert k. induction d as [|x d IH]; intros k; simpl.
  - intros H. inversion H.
  - destruct (p x); [rewrite elem_of_cons; intros [->|H]; [lia|]|intros H];
      apply IH in H; lia.
Qed.

Lemma increasing_nat_cons (a : nat) (l : list nat) :
  (forall b, b ∈ l -> (a < b)%nat) -> increasing_nat l ->
  increasing_nat (a :: l).
Proof.
  intros Ha Hl [|j] x y Hx Hy; simpl in *.
  - inversion Hx; subst. apply Ha. apply list_elem_of_lookup. exists 0%nat.
    exact Hy.
  - apply (Hl j); assumption.
Qed.

Lemma where_from_increasing (p : Z -> bool) (d : list Z) (k : nat) :
  increasing_nat (where_from k p d).
Proof.
  revert k. induction d as [|x d IH]; intros k; simpl.
  - intros j a b H. destruct j; discriminate.
  - destruct (p x); [|apply IH].
    apply increasing_nat_cons; [|apply IH].
    intros b Hb. apply where_from_ge in Hb. lia.
Qed.

(** The onsets and offsets are the transitions at alternate places:
    the first transition of a mask that starts inactive is an onset,
    that of a mask that starts active an offset. *)
Lemma transitions_alternate (b : bool) (rest : list bool) (k : nat) :
  let d := np_diff (astype_int (b :: rest)) in
  let m := transitions k (b :: rest) in
  where_from k (fun x => (x >? 0)%Z) d = (if b then odds m else evens m)
  /\ where_from k (fun x => (x <? 0)%Z) d = (if b then evens m else odds m).
Proof.
  revert b k. induction rest as [|b' rest IH]; intros b k.
  - destruct b; split; reflexivity.
  - specialize (IH b' (S k)). cbv zeta in *. unfold transitions in *.
    change (np_diff (astype_int (b :: b' :: rest)))
      with ((Z.b2z b' - Z.b2z b)%Z :: np_diff (astype_int (b' :: rest))).
    destruct IH as [IH1 IH2].
    destruct b, b';
      [ change (Z.b2z true - Z.b2z true)%Z with 0%Z
      | change (Z.b2z false - Z.b2z true)%Z with (-1)%Z
      | change (Z.b2z true - Z.b2z false)%Z with 1%Z
      | change (Z.b2z false - Z.b2z false)%Z with 0%Z ];
      cbn [where_from Z.gtb Z.ltb Z.eqb Z.compare negb];
      rewrite ?evens_cons, ?odds_cons, IH1, IH2; split; reflexivity.
Qed.

(** ** Increasing sequences *)

Lemma increasing_tail (x : Q) (l : list Q) : increasing (x :: l) -> increasing l.
Proof. intros H j a b Ha Hb. apply (H (S j)); assumption. Qed.

Lemma increasing_cons (x : Q) (l : list Q) :
  (forall y, head l = Some y -> x < y) -> increasing l -> increasing (x :: l).
Proof.
  intros Hx Hl [|j] a b Ha Hb; simpl in *.
  - inversion Ha; subst. apply Hx. destruct l; [discriminate|exact Hb].
  - apply (Hl j); assumption.
Qed.

Lemma increasing_snoc (l : list Q) (z : Q) :
  increasing l -> (forall y, last l = Some y -> y < z) -> increasing (l ++ [z]).
Proof.
  intros Hl Hz j a b Ha Hb.
  assert (Hj : (S j < length (l ++ [z]))%nat)
    by (apply lookup_lt_is_Some; eauto).
  rewrite length_app in Hj. simpl in Hj.
  rewrite lookup_app_l in Ha by lia.
  destruct (decide (S j < length l)%nat) as [Hlt|Hge].
  - rewrite lookup_app_l in Hb by lia. apply (Hl j); assumption.
  - assert (Hlen : length l = S j) by lia.
    rewrite lookup_app_r, Hlen, Nat.sub_diag in Hb by lia.
    inversion Hb; subst. apply Hz.
    rewrite last_lookup, Hlen. exact Ha.
Qed.

(** In an increasing sequence of at least two values, cut in its even
    and odd places, the last odd place is after the last even place
    exactly when the length is even. *)
Lemma last_evens_odds (l : list Q) :
  increasing l -> (2 <= length l)%nat ->
  exists x y,
    last (evens l) = Some x /\ last (odds l) = Some y
    /\ ((Nat.even (length l) = true /\ x < y)
        \/ (Nat.odd (length l) = true /\ y < x /\ last l = Some x)).
Proof.
  induction l as [| a | a b l IH] using list_ind2; intros Hinc Hlen;
    [simpl in Hlen; lia..|].
  destruct l as [|c [|c' l]].
  - exists a, b. repeat split; try reflexivity. left. split; [reflexivity|].
    apply (Hinc 0%nat); reflexivity.
  - exists c, b. repeat split; try reflexivity. right.
    split; [reflexivity|]. split; [|reflexivity].
    apply (Hinc 1%nat); reflexivity.
  - destruct IH as (x & y & Hx & Hy & Hcase).
    { apply increasing_tail, increasing_tail in Hinc. exact Hinc. }
    { simpl. lia. }
    set (l2 := c :: c' :: l) in *. clearbody l2.
    exists x, y.
    rewrite evens_cons, !odds_cons, evens_cons, !last_cons, Hx, Hy.
    split; [reflexivity|]. split; [reflexivity|].
    destruct Hcase as [[He Hlt]|(Ho & Hlt & Hlast)].
    + left. split; [exact He|exact Hlt].
    + right. split; [exact Ho|]. split; [exact Hlt|].
      rewrite Hlast. reflexivity.
Qed.

(** The reconciler on the even and odd places of an increasing
    sequence: the result is again such a pair, over a sequence of even
    length. *)
Lemma reconcile_interleaved (b : bool) (M0 : list Q)
    (onset offset : list Q) (tmin tmax : Q) :
  increasing M0 ->
  onset = (if b then odds M0 else evens M0) ->
  offset = (if b then evens M0 else odds M0) ->
  onset <> [] -> offset <> [] ->
  (forall x, head offset = Some x -> tmin < x) ->
  (forall x, last onset = Some x -> x < tmax) ->
  exists M,
    increasing M /\ Nat.even (length M) = true
    /\ corresp_onset_offset onset offset tmin tmax = Ok (evens M, odds M).
Proof.
  intros Hinc Hon Hoff Hone Hoffne Hmin Hmax.
  destruct M0 as [|x0 [|x1 M']].
  { destruct b; subst; unfold odds in *; simpl in *; congruence. }
  { destruct b; subst; unfold odds in *; simpl in *; congruence. }
  assert (H01 : x0 < x1) by (apply (Hinc 0%nat); reflexivity).
  (* the start *)
  assert (Hstart : exists on0 off0 M1,
    head onset = Some on0 /\ head offset = Some off0
    /\ increasing M1 /\ (2 <= length M1)%nat
    /\ (if Qgtb on0 off0 then tmin :: onset else onset) = evens M1
    /\ offset = odds M1).
  { destruct b; subst onset offset.
    - exists x1, x0, (tmin :: x0 :: x1 :: M').
      split; [reflexivity|]. split; [reflexivity|]. split.
      { apply increasing_cons; [|exact Hinc]. intros y [= <-].
        apply Hmin. reflexivity. }
      split; [simpl; lia|].
      apply Qgtb_lt in H01. rewrite H01. split; reflexivity.
    - exists x0, x1, (x0 :: x1 :: M').
      split; [reflexivity|]. split; [reflexivity|]. split; [exact Hinc|].
      split; [simpl; lia|].
      apply Qlt_le_weak, Qgtb_le in H01. rewrite H01. split; reflexivity. }
  destruct Hstart as (on0 & off0 & M1 & Hh1 & Hh2 & Hinc1 & Hlen1 & Hon1 & Hoff1).
  destruct (last_evens_odds M1 Hinc1 Hlen1) as (x & y & Hx & Hy & Hcase).
  assert (Hlast_on : last onset = Some x).
  { rewrite <- Hon1 in Hx. destruct (Qgtb on0 off0); [|exact Hx].
    rewrite last_cons_ne in Hx by exact Hone. exact Hx. }
  assert (Hlast_off : last offset = Some y) by (rewrite Hoff1; exact Hy).
  rewrite (corresp_onset_offset_eq _ _ _ _ _ _ _ _ Hh1 Hh2 Hlast_on Hlast_off).
  rewrite Hon1, Hoff1.
  destruct Hcase as [[He Hlt]|(Ho & Hlt & Hlast)].
  - exists M1. split; [exact Hinc1|]. split; [exact He|].
    apply Qlt_le_weak, Qgtb_le in Hlt. rewrite Hlt. reflexivity.
  - exists (M1 ++ [tmax]). split.
    { apply increasing_snoc; [exact Hinc1|].
      intros z Hz. apply Hmax. congruence. }
    split.
    { rewrite length_app. simpl. rewrite Nat.add_1_r, Nat.even_succ.
      exact Ho. }
    apply Qgtb_lt in Hlt. rewrite Hlt.
    destruct (evens_odds_snoc M1 tmax Ho) as [-> ->]. reflexivity.
Qed.

(** ** Edge times of a mask on a grid *)

Lemma np_take_cons (t : list Q) (i : nat) (idx : list nat) :
  np_take t (i :: idx)
  = (y ← of_option IndexError (t !! i); k ← np_take t idx; mret (y :: k)).
Proof. reflexivity. Qed.

Lemma np_take_ok (t : list Q) (idx : list nat) (picked : list Q) :
  np_take t idx = Ok picked ->
  picked = (fun i => default 0 (t !! i)) <$> idx
  /\ Forall (fun i => is_Some (t !! i)) idx.
Proof.
  revert picked. induction idx as [|i idx IH]; intros picked H.
  - inversion H. split; [reflexivity|constructor].
  - rewrite np_take_cons in H.
    destruct (t !! i) as [x|] eqn:Ei; [|discriminate].
    cbn [of_option] in H. rewrite bind_ret_l in H.
    destruct (np_take t idx) as [r|e]; [|discriminate].
    rewrite bind_ret_l in H. inversion H; subst.
    destruct (IH r eq_refl) as [-> HF]. split.
    + rewrite fmap_cons, Ei. reflexivity.
    + constructor; [rewrite Ei; eauto|exact HF].
Qed.

Lemma edge_times_ok (cond : Z -> bool) (t : list Q) (mask : list bool)
    (r : list Q) :
  edge_times cond t mask = Ok r ->
  exists t0,
    t !! 0%nat = Some t0
    /\ r = (fun i => default 0 (t !! i) + t0)
             <$> np_where cond (np_diff (astype_int mask))
    /\ Forall (fun i => is_Some (t !! i))
         (np_where cond (np_diff (astype_int mask))).
Proof.
  unfold edge_times.
  destruct (np_take t _) as [picked|e] eqn:Ep; [|discriminate].
  rewrite bind_ret_l.
  destruct (t !! 0%nat) as [t0|]; [|discriminate].
  cbn [of_option]. rewrite bind_ret_l. intros H. inversion H; subst.
  destruct (np_take_ok _ _ _ Ep) as [-> HF].
  exists t0. split; [reflexivity|]. split; [|exact HF].
  rewrite <- list_fmap_compose. reflexivity.
Qed.

(** X20: for non-empty onset and offset sequences taken from the
    transitions of one mask on a strictly increasing grid, with [tmin]
    before the first offset and [tmax] after the last onset,
    [corresp_onset_offset] returns sequences of equal length with
    [onset[i] < offset[i]] and [offset[i] <= onset[i+1]] for every
    [i]. *)
Theorem X20_reconciled_intervals_ordered (t : list Q) (mask : list bool)
    (onset offset : list Q) (tmin tmax : Q) :
  grid_increasing t ->
  onset_times t mask = Ok onset ->
  offset_times t mask = Ok offset ->
  onset <> [] -> offset <> [] ->
  (forall x, head offset = Some x -> tmin < x) ->
  (forall x, last onset = Some x -> x < tmax) ->
  exists on' off',
    corresp_onset_offset onset offset tmin tmax = Ok (on', off')
    /\ length on' = length off'
    /\ (forall i x y, on' !! i = Some x -> off' !! i = Some y -> x < y)
    /\ (forall i x y, off' !! i = Some x -> on' !! S i = Some y -> x <= y).
Proof.
  intros Hgrid Hon Hoff Hone Hoffne Hmin Hmax.
  destruct (edge_times_ok _ _ _ _ Hon) as (t0 & Ht0 & Eon & Fon).
  destruct (edge_times_ok _ _ _ _ Hoff) as (t0' & Ht0' & Eoff & Foff).
  assert (t0' = t0) by congruence. subst t0'.
  destruct mask as [|b rest]; [exfalso; apply Hone; rewrite Eon; reflexivity|].
  destruct (transitions_alternate b rest 0) as [Aon Aoff].
  fold (np_where (fun x => (x >? 0)%Z) (np_diff (astype_int (b :: rest))))
    in Aon.
  fold (np_where (fun x => (x <? 0)%Z) (np_diff (astype_int (b :: rest))))
    in Aoff.
  set (m := transitions 0 (b :: rest)) in *.
  set (g := fun i => default 0 (t !! i) + t0) in *.
  rewrite Aon in Eon, Fon. rewrite Aoff in Eoff, Foff.
  assert (Hrange : forall a, a ∈ m -> is_Some (t !! a)).
  { intros a Ha. rewrite Forall_forall in Fon, Foff.
    destruct (elem_of_evens_odds _ _ Ha); destruct b; auto. }
  assert (Hinc : increasing (g <$> m)).
  { intros j x y Hx Hy. rewrite list_lookup_fmap in Hx, Hy.
    destruct (m !! j) as [a|] eqn:Ea; [|discriminate].
    destruct (m !! S j) as [c|] eqn:Ec; [|discriminate].
    simpl in Hx, Hy. inversion Hx; inversion Hy; subst x y.
    assert (Hm : increasing_nat m) by apply where_from_increasing.
    assert (Hac : (a < c)%nat) by (apply (Hm j); assumption).
    destruct (Hrange a) as [ta Hta];
      [apply list_elem_of_lookup; eauto|].
    destruct (Hrange c) as [tc Htc];
      [apply list_elem_of_lookup; eauto|].
    unfold g. rewrite Hta, Htc. simpl.
    apply Qplus_lt_l. apply (Hgrid a c); assumption. }
  destruct (reconcile_interleaved b (g <$> m) onset offset tmin tmax)
    as (M & HM & Heven & Hres); try assumption.
  { rewrite Eon. destruct b; [apply eq_sym, odds_fmap|apply eq_sym, evens_fmap]. }
  { rewrite Eoff. destruct b; [apply eq_sym, evens_fmap|apply eq_sym, odds_fmap]. }
  exists (evens M), (odds M). split; [exact Hres|].
  split; [apply evens_odds_length; exact Heven|]. split.
  - intros i x y. rewrite evens_lookup, odds_lookup.
    replace (2 * i + 1)%nat with (S (2 * i)) by lia. apply HM.
  - intros i x y. rewrite evens_lookup, odds_lookup.
    replace (2 * S i)%nat with (S (2 * i + 1)) by lia.
    intros Hx Hy. apply Qlt_le_weak. apply (HM _ _ _ Hx Hy).
Qed.

Lemma grid_increasing_of_increasing (t : list Q) :
  increasing t -> grid_increasing t.
Proof.
  intros Hinc.
  assert (H : forall d i x y,
             t !! i = Some x -> t !! (i + S d)%nat = Some y -> x < y).
  { induction d as [|d IH]; intros i x y Hx Hy.
    - rewrite Nat.add_1_r in Hy. apply (Hinc i); assumption.
    - destruct (lookup_lt_is_Some_2 t (S i)) as [z Hz].
      { apply lookup_lt_Some in Hy. lia. }
      apply Qlt_trans with z.
      + apply (Hinc i); assumption.
      + apply (IH (S i)); [exact Hz|].
        replace (S i + S d)%nat with (i + S (S d))%nat by lia. exact Hy. }
  intros i j x y Hij Hx Hy.
  apply (H (j - S i)%nat i); [exact Hx|].
  replace (i + S (j - S i))%nat with j by lia. exact Hy.
Qed.

Lemma X20_reconciled_intervals_ordered_witness :
  exists on' off',
    corresp_onset_offset [4; 8] [2; 6] 0 10 = Ok (on', off')
    /\ length on' = length off'
    /\ (forall i x y, on' !! i = Some x -> off' !! i = Some y -> x < y)
    /\ (forall i x y, off' !! i = Some x -> on' !! S i = Some y -> x <= y).
Proof.
  apply (X20_reconciled_intervals_ordered [1; 3; 5; 7; 9]
           (segments_bin [5; 0; 5; 0; 5] 1) [4; 8] [2; 6] 0 10).
  - apply grid_increasing_of_increasing.
    intros j x y.
    do 5 (destruct j as [|j];
          [intros [= <-]; try discriminate; intros [= <-]; reflexivity|]).
    discriminate.
  - reflexivity.
  - reflexivity.
  - discriminate.
  - discriminate.
  - intros x [= <-]. reflexivity.
  - intros x [= <-]. reflexivity.
Defined.

(** At the call of [find_rois_cwt] the last interval can be empty.  A
    signal of four samples with window length 2 at 1 Hz has the grid
    1, 3, 5 and lasts 4 s; a mask that is active, inactive, active has
    its onset at [t[1] + t[0] = 4], and the offset appended for it is
    [tmax = len(s)/fs = 4]. *)
Lemma last_interval_can_be_empty :
  let t := [1; 3; 5] in
  let mask := segments_bin [1; 0; 1] 0 in
  match energy_windowed [1; 2; 3; 4] 2 1 with
  | Ok (time, _) => Qred <$> time = t
  | Raise _ => False
  end
  /\ grid_increasing t
  /\ mask = [true; false; true]
  /\ onset_times t mask = Ok [4]
  /\ offset_times t mask = Ok [2]
  /\ pydiv (inject_Z (Z.of_nat (length [1; 2; 3; 4]))) 1 = Ok (4 / 1)
  /\ exists on' off' x y,
       corresp_onset_offset [4] [2] 0 (4 / 1) = Ok (on', off')
       /\ on' !! 1%nat = Some x /\ off' !! 1%nat = Some y /\ ~ x < y.
Proof.
  cbv zeta. split; [reflexivity|]. split.
  { apply grid_increasing_of_increasing. intros j x y.
    do 3 (destruct j as [|j];
          [intros [= <-]; try discriminate; intros [= <-]; reflexivity|]).
    discriminate. }
  do 4 (split; [reflexivity|]).
  exists [0; 4], [2; 4 / 1], 4, (4 / 1).
  repeat split; try reflexivity.
  vm_compute. discriminate.
Qed.

(** ** The bounds that [find_rois_cwt] passes to the reconciler *)

(** The grid of [energy_windowed]: one midpoint per window of the
    padded signal. *)
Lemma energy_windowed_grid (s : list Q) (wl : Z) (fs : Q)
    (t s_rms : list Q) :
  s <> [] -> (0 < wl)%Z ->
  energy_windowed s wl fs = Ok (t, s_rms) ->
  exists k rows,
    pad_amount (Z.of_nat (length s)) wl = Ok k
    /\ (Z.of_nat rows * wl = Z.of_nat (length s) + k)%Z
    /\ t = (fun j => inject_Z (Z.of_nat j) * inject_Z wl / fs
                     + inject_Z wl * 0.5 / fs) <$> seq 0 rows.
Proof.
  intros Hs Hwl.
  destruct (padded_ok s wl Hs Hwl) as (k & ext & Hk & Hp & Hext & Hmod).
  set (p := s ++ ext) in *.
  assert (Hexact : (Z.of_nat (length p) / wl * wl = Z.of_nat (length p))%Z).
  { rewrite Z.mul_comm. symmetry. apply Z_div_exact_full_2; [lia|exact Hmod]. }
  assert (Hrows : (0 <= Z.of_nat (length p) / wl)%Z) by (apply Z.div_pos; lia).
  unfold energy_windowed. rewrite Hp, bind_ret_l.
  rewrite length_fmap, py_int_div, bind_ret_l by lia.
  unfold np_reshape. rewrite length_fmap.
  assert (G : ((0 <=? Z.of_nat (length p) / wl)
               && (0 <=? wl)
               && (Z.of_nat (length p) / wl * wl
                   =? Z.of_nat (length p)))%Z = true).
  { rewrite !andb_true_iff. repeat split;
      [apply Z.leb_le; exact Hrows | apply Z.leb_le; lia
      | apply Z.eqb_eq; exact Hexact]. }
  rewrite G, bind_ret_l.
  unfold pydiv. destruct (Qeq_bool fs 0); [discriminate|].
  rewrite bind_ret_l. intros [= <- _].
  exists k, (Z.to_nat (Z.of_nat (length p) / wl)).
  split; [exact Hk|]. split.
  - rewrite Z2Nat.id by exact Hrows. rewrite Hexact.
    unfold p. rewrite length_app. lia.
  - rewrite length_fmap, chunks_length. reflexivity.
Qed.

Lemma where_from_lt (p : Z -> bool) (d : list Z) (k i : nat) :
  i ∈ where_from k p d -> (i < k + length d)%nat.
Proof.
  revert k. induction d as [|x d IH]; intros k; simpl.
  - intros H. inversion H.
  - destruct (p x); [rewrite elem_of_cons; intros [->|H]; [lia|]|intros H];
      apply IH in H; lia.
Qed.

Lemma np_diff_length (a : list Z) : length (np_diff a) = (length a - 1)%nat.
Proof.
  unfold np_diff. rewrite length_zip_with, tail_length. lia.
Qed.

(** An edge at index [i] of the energy grid has the time
    [(i + 1) * wl / fs]. *)
Lemma edge_time_value (wl : Z) (fs : Q) (i : nat) :
  (inject_Z (Z.of_nat i) * inject_Z wl / fs + inject_Z wl * 0.5 / fs)
  + (inject_Z (Z.of_nat 0) * inject_Z wl / fs + inject_Z wl * 0.5 / fs)
  == inject_Z ((Z.of_nat i + 1) * wl) / fs.
Proof.
  rewrite inject_Z_mult, inject_Z_plus. unfold Qdiv. simpl (Z.of_nat 0).
  ring.
Qed.

(** At the call of line 163 every edge time is positive, so [tmin = 0]
    is before the first offset; every edge time is at most
    [tmax = len(s)/fs], and below it when [len(s)] is not a multiple of
    the window length. *)
Lemma call_site_brackets (s : list Q) (wl : Z) (fs : Q) (t s_rms : list Q)
    (cond : Z -> bool) (mask : list bool) (edges : list Q) :
  s <> [] -> (0 < wl)%Z -> 0 < fs ->
  energy_windowed s wl fs = Ok (t, s_rms) ->
  (length mask <= length t)%nat ->
  edge_times cond t mask = Ok edges ->
  forall x, x ∈ edges ->
    0 < x
    /\ x <= inject_Z (Z.of_nat (length s)) / fs
    /\ ((Z.of_nat (length s) mod wl <> 0)%Z ->
        x < inject_Z (Z.of_nat (length s)) / fs).
Proof.
  intros Hs Hwl Hfs He Hlen Hedges x Hx.
  destruct (energy_windowed_grid _ _ _ _ _ Hs Hwl He)
    as (k & rows & Hk & Hrows & Ht).
  destruct (edge_times_ok _ _ _ _ Hedges) as (t0 & Ht0 & -> & _).
  apply list_elem_of_fmap in Hx. destruct Hx as (i & -> & Hi).
  apply where_from_lt in Hi.
  rewrite np_diff_length in Hi. unfold astype_int in Hi.
  rewrite length_fmap in Hi.
  assert (Hlt : length t = rows) by (rewrite Ht, length_fmap, length_seq; reflexivity).
  assert (Hi2 : (i + 2 <= rows)%nat) by lia.
  rewrite Ht in Ht0. rewrite seq_fmap_lookup in Ht0 by lia.
  inversion Ht0 as [Et0]. clear Ht0.
  assert (Eti : t !! i = Some (inject_Z (Z.of_nat i) * inject_Z wl / fs
                               + inject_Z wl * 0.5 / fs)).
  { rewrite Ht. rewrite seq_fmap_lookup by lia. reflexivity. }
  rewrite Eti. simpl. rewrite edge_time_value.
  unfold pad_amount in Hk. rewrite pymod_ok, bind_ret_l in Hk by exact Hwl.
  inversion Hk as [Ek]. clear Hk.
  pose proof (Z.mod_pos_bound (Z.of_nat (length s)) wl Hwl) as Hmod.
  assert (Hinv : 0 < / fs) by (apply Qinv_lt_0_compat; exact Hfs).
  assert (Hle : ((Z.of_nat i + 1) * wl <= Z.of_nat (length s))%Z) by nia.
  unfold Qdiv. split; [|split].
  - apply Qmult_lt_0_compat; [|exact Hinv].
    change 0 with (inject_Z 0). rewrite <- Zlt_Qlt. nia.
  - apply Qmult_le_compat_r; [|apply Qlt_le_weak; exact Hinv].
    rewrite <- Zle_Qle. exact Hle.
  - intros Hne. apply Qmult_lt_compat_r; [exact Hinv|].
    rewrite <- Zlt_Qlt. nia.
Qed.

(** * Further properties *)

(** ** The energy reducer: domain, shape and values *)

(** [energy_windowed] on a non-empty signal with a positive window
    length, up to the division by [fs]. *)
Lemma energy_windowed_unfold (s : list Q) (wl : Z) (fs : Q) :
  s <> [] -> (0 < wl)%Z ->
  exists ext,
    padded s wl = Ok (s ++ ext)
    /\ Z.of_nat (length ext)
       = (wl - Z.of_nat (length s) mod wl)%Z
    /\ energy_windowed s wl fs
       = (half ← pydiv (inject_Z wl * 0.5) fs;
          mret ((fun k => inject_Z (Z.of_nat k) * inject_Z wl / fs + half)
                  <$> seq 0 (Z.to_nat (Z.of_nat (length s) / wl + 1)),
                np_mean
                  <$> chunks (Z.to_nat (Z.of_nat (length s) / wl + 1))
                        (Z.to_nat wl) ((fun x => x ^ 2) <$> (s ++ ext)))).
Proof.
  intros Hs Hwl.
  destruct (padded_ok s wl Hs Hwl) as (k & ext & Hk & Hp & Hext & Hmod).
  unfold pad_amount in Hk. rewrite pymod_ok, bind_ret_l in Hk by exact Hwl.
  inversion Hk as [Ek]. clear Hk.
  exists ext. split; [exact Hp|]. split; [lia|].
  assert (Hlen : Z.of_nat (length (s ++ ext))
                 = ((Z.of_nat (length s) / wl + 1) * wl)%Z).
  { rewrite length_app, Nat2Z.inj_add, Hext, <- Ek.
    pose proof (Z.div_mod (Z.of_nat (length s)) wl) as Hdm. lia. }
  assert (Hdiv : (Z.of_nat (length (s ++ ext)) / wl
                  = Z.of_nat (length s) / wl + 1)%Z).
  { rewrite Hlen. apply Z.div_mul. lia. }
  assert (Hrows : (0 <= Z.of_nat (length s) / wl + 1)%Z).
  { pose proof (Z.div_pos (Z.of_nat (length s)) wl). lia. }
  unfold energy_windowed. rewrite Hp, bind_ret_l.
  rewrite length_fmap, py_int_div, bind_ret_l by lia.
  unfold np_reshape. rewrite length_fmap, Hdiv.
  assert (G : ((0 <=? Z.of_nat (length s) / wl + 1)
               && (0 <=? wl)
               && ((Z.of_nat (length s) / wl + 1) * wl
                   =? Z.of_nat (length (s ++ ext))))%Z = true).
  { rewrite !andb_true_iff. repeat split;
      [apply Z.leb_le; exact Hrows | apply Z.leb_le; lia
      | apply Z.eqb_eq; lia]. }
  rewrite G, bind_ret_l.
  rewrite length_fmap, chunks_length. reflexivity.
Qed.

Lemma pymod_nonzero (a b : Z) : b <> 0%Z -> pymod a b = Ok (a mod b)%Z.
Proof.
  intros H. unfold pymod. destruct (b =? 0)%Z eqn:E; [|reflexivity].
  apply Z.eqb_eq in E. contradiction.
Qed.

Lemma pydiv_zero (x y : Q) : y == 0 -> pydiv x y = Raise ZeroDivisionError.
Proof.
  intros H. unfold pydiv. apply Qeq_bool_iff in H. rewrite H. reflexivity.
Qed.

Lemma energy_windowed_wl_neg (s : list Q) (wl : Z) (fs : Q) :
  (wl < 0)%Z -> energy_windowed s wl fs = Raise ValueError.
Proof.
  intros Hwl. unfold energy_windowed, padded, pad_amount.
  rewrite pymod_nonzero, !bind_ret_l by lia.
  pose proof (Z.mod_neg_bound (Z.of_nat (length s)) wl Hwl) as Hb.
  unfold np_pad_reflect.
  assert (G : (wl - Z.of_nat (length s) mod wl <? 0)%Z = true)
    by (apply Z.ltb_lt; lia).
  rewrite G. reflexivity.
Qed.

Lemma energy_windowed_empty (wl : Z) (fs : Q) :
  (0 < wl)%Z -> energy_windowed [] wl fs = Raise ValueError.
Proof.
  intros Hwl. unfold energy_windowed, padded, pad_amount.
  rewrite pymod_ok, !bind_ret_l by exact Hwl. simpl length.
  rewrite Z.mod_0_l by lia. unfold np_pad_reflect.
  assert (G1 : (wl - 0 <? 0)%Z = false) by (apply Z.ltb_ge; lia).
  assert (G2 : (wl - 0 =? 0)%Z = false) by (apply Z.eqb_neq; lia).
  rewrite G1, G2. reflexivity.
Qed.

(** [energy_windowed] returns only on a non-empty signal, a positive
    window length and a non-zero sampling rate. *)
Lemma energy_windowed_ok_inv (s : list Q) (wl : Z) (fs : Q)
    (r : list Q * list Q) :
  energy_windowed s wl fs = Ok r -> s <> [] /\ (0 < wl)%Z /\ ~ fs == 0.
Proof.
  intros H.
  assert (Hwl : (0 < wl)%Z).
  { destruct (Z.lt_trichotomy wl 0) as [Hlt|[->|Hgt]]; [| |exact Hgt].
    - rewrite (energy_windowed_wl_neg _ _ _ Hlt) in H. discriminate.
    - discriminate H. }
  assert (Hs : s <> []).
  { intros ->. rewrite (energy_windowed_empty _ _ Hwl) in H. discriminate. }
  split; [exact Hs|]. split; [exact Hwl|].
  intros Hz.
  destruct (energy_windowed_unfold s wl fs Hs Hwl) as (ext & _ & _ & E).
  rewrite E, pydiv_zero in H by exact Hz. discriminate.
Qed.

(** X1: the inputs [energy_windowed] accepts and the exception on each
    kind it refuses.  A zero window length raises [ZeroDivisionError]
    (the modulo of line 96), a negative one [ValueError] (a negative pad
    width), an empty signal [ValueError] (nothing to reflect), a zero
    sampling rate [ZeroDivisionError] (line 101); every other input
    returns, and only those do. *)
Theorem X1_energy_windowed_domain (s : list Q) (wl : Z) (fs : Q) :
  (wl = 0%Z -> energy_windowed s wl fs = Raise ZeroDivisionError)
  /\ ((wl < 0)%Z -> energy_windowed s wl fs = Raise ValueError)
  /\ ((0 < wl)%Z -> s = [] -> energy_windowed s wl fs = Raise ValueError)
  /\ ((0 < wl)%Z -> s <> [] -> fs == 0 ->
      energy_windowed s wl fs = Raise ZeroDivisionError)
  /\ ((exists r, energy_windowed s wl fs = Ok r)
      <-> (0 < wl)%Z /\ s <> [] /\ ~ fs == 0).
Proof.
  split; [intros ->; reflexivity|].
  split; [apply energy_windowed_wl_neg|].
  split; [intros Hwl ->; apply energy_windowed_empty; exact Hwl|].
  split.
  - intros Hwl Hs Hfs.
    destruct (energy_windowed_unfold s wl fs Hs Hwl) as (ext & _ & _ & ->).
    rewrite pydiv_zero by exact Hfs. reflexivity.
  - split.
    + intros [r Hr]. apply energy_windowed_ok_inv in Hr. tauto.
    + intros (Hwl & Hs & Hfs).
      destruct (energy_windowed_unfold s wl fs Hs Hwl) as (ext & _ & _ & ->).
      rewrite pydiv_ok by exact Hfs. eexists. reflexivity.
Qed.

Lemma X1_energy_windowed_domain_witness :
  energy_windowed [1; 2; 3] (-2) 10 = Raise ValueError
  /\ energy_windowed [1; 2; 3] 2 0 = Raise ZeroDivisionError
  /\ exists r, energy_windowed [1; 2; 3] 2 10 = Ok r.
Proof.
  split; [|split].
  - destruct (X1_energy_windowed_domain [1; 2; 3] (-2) 10)
      as (_ & H & _). apply H. reflexivity.
  - destruct (X1_energy_windowed_domain [1; 2; 3] 2 0)
      as (_ & _ & _ & H & _).
    apply H; [reflexivity | discriminate | reflexivity].
  - destruct (X1_energy_windowed_domain [1; 2; 3] 2 10)
      as (_ & _ & _ & _ & H).
    apply H. split; [reflexivity|]. split; [discriminate|].
    vm_compute. discriminate.
Defined.

(** The result of [energy_windowed], read off a successful call. *)
Lemma energy_windowed_result (s : list Q) (wl : Z) (fs : Q)
    (t s_rms : list Q) :
  energy_windowed s wl fs = Ok (t, s_rms) ->
  exists ext,
    padded s wl = Ok (s ++ ext)
    /\ t = (fun k => inject_Z (Z.of_nat k) * inject_Z wl / fs
                     + inject_Z wl * 0.5 / fs)
             <$> seq 0 (Z.to_nat (Z.of_nat (length s) / wl + 1))
    /\ s_rms = np_mean
                 <$> chunks (Z.to_nat (Z.of_nat (length s) / wl + 1))
                       (Z.to_nat wl) ((fun x => x ^ 2) <$> (s ++ ext)).
Proof.
  intros H. destruct (energy_windowed_ok_inv _ _ _ _ H) as (Hs & Hwl & Hfs).
  destruct (energy_windowed_unfold s wl fs Hs Hwl) as (ext & Hp & _ & E).
  rewrite E, pydiv_ok, bind_ret_l in H by exact Hfs.
  inversion H. exists ext. auto.
Qed.

(** X2: a successful [energy_windowed] returns [len(s) // wl + 1]
    energies and as many time stamps: one window more than the signal
    has complete windows, also when the length is a multiple of [wl]. *)
Theorem X2_number_of_windows (s : list Q) (wl : Z) (fs : Q)
    (t s_rms : list Q) :
  energy_windowed s wl fs = Ok (t, s_rms) ->
  Z.of_nat (length s_rms) = (Z.of_nat (length s) / wl + 1)%Z
  /\ length t = length s_rms.
Proof.
  intros H. destruct (energy_windowed_ok_inv _ _ _ _ H) as (Hs & Hwl & Hfs).
  destruct (energy_windowed_result _ _ _ _ _ H) as (ext & _ & -> & ->).
  rewrite !length_fmap, chunks_length, length_seq.
  split; [|reflexivity].
  pose proof (Z.div_pos (Z.of_nat (length s)) wl). lia.
Qed.

Lemma X2_number_of_windows_witness :
  Z.of_nat (length [5 # 2; 25 # 2; 13 # 2])
  = (Z.of_nat (length [1; 2; 3; 4]) / 2 + 1)%Z
  /\ length [1.0; 3.0; 5.0] = length [5 # 2; 25 # 2; 13 # 2].
Proof.
  apply (X2_number_of_windows [1; 2; 3; 4] 2 1 [1.0; 3.0; 5.0]
           [5 # 2; 25 # 2; 13 # 2]).
  reflexivity.
Defined.

(** X3: the padding does not touch the signal: the energy of every
    window that lies within the signal is the mean square of that
    window of the signal itself. *)
Theorem X3_complete_windows (s : list Q) (wl : Z) (fs : Q)
    (t s_rms : list Q) (k : nat) :
  energy_windowed s wl fs = Ok (t, s_rms) ->
  ((Z.of_nat k + 1) * wl <= Z.of_nat (length s))%Z ->
  s_rms !! k
  = Some (np_mean ((fun x => x ^ 2)
                     <$> take (Z.to_nat wl) (drop (k * Z.to_nat wl) s))).
Proof.
  intros H Hk. destruct (energy_windowed_ok_inv _ _ _ _ H) as (Hs & Hwl & Hfs).
  destruct (energy_windowed_result _ _ _ _ _ H) as (ext & _ & _ & ->).
  assert (Hrow : (k < Z.to_nat (Z.of_nat (length s) / wl + 1))%nat).
  { assert ((Z.of_nat k + 1) <= Z.of_nat (length s) / wl)%Z
      by (apply Z.div_le_lower_bound; lia).
    lia. }
  rewrite list_lookup_fmap, chunks_lookup by exact Hrow. simpl.
  rewrite <- fmap_drop, <- fmap_take.
  assert (Hin : (k * Z.to_nat wl + Z.to_nat wl <= length s)%nat) by nia.
  rewrite drop_app_le by lia. rewrite take_app_le; [reflexivity|].
  rewrite length_drop. lia.
Qed.

Lemma X3_complete_windows_witness :
  [5 # 2; 25 # 2; 41 # 2] !! 1%nat
  = Some (np_mean ((fun x => x ^ 2)
                     <$> take (Z.to_nat 2)
                           (drop (1 * Z.to_nat 2) [1; 2; 3; 4; 5]))).
Proof.
  apply (X3_complete_windows [1; 2; 3; 4; 5] 2 1 [1.0; 3.0; 5.0]
           [5 # 2; 25 # 2; 41 # 2] 1).
  - reflexivity.
  - vm_compute. discriminate.
Defined.

Lemma Qsum_nonneg (l : list Q) : (forall x, x ∈ l -> 0 <= x) -> 0 <= Qsum l.
Proof.
  induction l as [|x l IH]; intros H; simpl.
  - apply Qle_refl.
  - change 0 with (0 + 0). apply Qplus_le_compat.
    + apply H. left.
    + apply IH. intros y Hy. apply H. right. exact Hy.
Qed.

Lemma np_mean_nonneg (l : list Q) : (forall x, x ∈ l -> 0 <= x) -> 0 <= np_mean l.
Proof.
  intros H. unfold np_mean, Qdiv. apply Qmult_le_0_compat.
  - apply Qsum_nonneg. exact H.
  - apply Qinv_le_0_compat. change 0 with (inject_Z 0).
    rewrite <- Zle_Qle. lia.
Qed.

(** X4: every energy value that [energy_windowed] returns is
    non-negative. *)
Theorem X4_energies_nonnegative (s : list Q) (wl : Z) (fs : Q)
    (t s_rms : list Q) (x : Q) :
  energy_windowed s wl fs = Ok (t, s_rms) -> x ∈ s_rms -> 0 <= x.
Proof.
  intros H Hx.
  destruct (energy_windowed_result _ _ _ _ _ H) as (ext & _ & _ & ->).
  apply list_elem_of_fmap in Hx. destruct Hx as (row & -> & Hrow).
  apply np_mean_nonneg. intros y Hy.
  apply list_elem_of_lookup in Hrow. destruct Hrow as [k Hk].
  assert (Hlt : (k < Z.to_nat (Z.of_nat (length s) / wl + 1))%nat).
  { apply lookup_lt_Some in Hk. rewrite chunks_length in Hk. exact Hk. }
  rewrite chunks_lookup in Hk by exact Hlt. inversion Hk; subst row.
  rewrite <- fmap_drop, <- fmap_take in Hy.
  apply list_elem_of_fmap in Hy. destruct Hy as (z & -> & _).
  apply Qsqr_nonneg.
Qed.

Lemma X4_energies_nonnegative_witness : 0 <= 25 # 2.
Proof.
  apply (X4_energies_nonnegative [1; 2; 3; 4] 2 1 [1.0; 3.0; 5.0]
           [5 # 2; 25 # 2; 13 # 2]).
  - reflexivity.
  - apply list_elem_of_lookup. exists 1%nat. reflexivity.
Defined.

(** X5: for a positive sampling rate the time grid of
    [energy_windowed] starts at half a window, [wl / (2*fs)], advances
    by one window, [wl / fs], per value and so increases strictly. *)
Theorem X5_time_grid (s : list Q) (wl : Z) (fs : Q) (t s_rms : list Q) :
  energy_windowed s wl fs = Ok (t, s_rms) -> 0 < fs ->
  (exists t0, t !! 0%nat = Some t0 /\ t0 == inject_Z wl / (2 * fs) /\ 0 < t0)
  /\ (forall k x y, t !! k = Some x -> t !! S k = Some y ->
                    y - x == inject_Z wl / fs)
  /\ grid_increasing t.
Proof.
  intros H Hfs. destruct (energy_windowed_ok_inv _ _ _ _ H) as (Hs & Hwl & Hfs0).
  destruct (energy_windowed_result _ _ _ _ _ H) as (ext & _ & -> & _).
  set (rows := Z.to_nat (Z.of_nat (length s) / wl + 1)).
  assert (Hrows : (0 < rows)%nat).
  { unfold rows. pose proof (Z.div_pos (Z.of_nat (length s)) wl). lia. }
  assert (Hstep : 0 < inject_Z wl / fs).
  { unfold Qdiv. apply Qmult_lt_0_compat.
    - change 0 with (inject_Z 0). rewrite <- Zlt_Qlt. exact Hwl.
    - apply Qinv_lt_0_compat. exact Hfs. }
  assert (Hdiff : forall k x y,
    ((fun k => inject_Z (Z.of_nat k) * inject_Z wl / fs
               + inject_Z wl * 0.5 / fs) <$> seq 0 rows) !! k = Some x ->
    ((fun k => inject_Z (Z.of_nat k) * inject_Z wl / fs
               + inject_Z wl * 0.5 / fs) <$> seq 0 rows) !! S k = Some y ->
    y - x == inject_Z wl / fs).
  { intros k x y Hx Hy.
    assert (Hk : (S k < rows)%nat).
    { apply lookup_lt_Some in Hy. rewrite length_fmap, length_seq in Hy.
      exact Hy. }
    rewrite seq_fmap_lookup in Hx by lia.
    rewrite seq_fmap_lookup in Hy by lia.
    inversion Hx; inversion Hy; subst x y.
    rewrite Nat2Z.inj_succ, <- Z.add_1_r, inject_Z_plus.
    unfold Qdiv. simpl (inject_Z 1). ring. }
  split; [|split].
  - eexists. split; [apply seq_fmap_lookup; exact Hrows|].
    split.
    + simpl (inject_Z (Z.of_nat 0)). field. intros E. rewrite E in Hfs.
      apply (Qlt_irrefl 0). exact Hfs.
    + simpl (inject_Z (Z.of_nat 0)).
      assert (E : 0 * inject_Z wl / fs + inject_Z wl * 0.5 / fs
                  == (inject_Z wl / fs) * 0.5) by (unfold Qdiv; ring).
      rewrite E. apply Qmult_lt_0_compat; [exact Hstep|reflexivity].
  - exact Hdiff.
  - apply grid_increasing_of_increasing. intros k x y Hx Hy.
    pose proof (Hdiff k x y Hx Hy) as Hd.
    apply Qlt_minus_iff. rewrite <- Hd in Hstep. exact Hstep.
Qed.

Lemma X5_time_grid_witness :
  (exists t0, [1.0; 3.0; 5.0] !! 0%nat = Some t0
              /\ t0 == inject_Z 2 / (2 * 1) /\ 0 < t0)
  /\ (forall k x y, [1.0; 3.0; 5.0] !! k = Some x ->
                    [1.0; 3.0; 5.0] !! S k = Some y ->
                    y - x == inject_Z 2 / 1)
  /\ grid_increasing [1.0; 3.0; 5.0].
Proof.
  apply (X5_time_grid [1; 2; 3; 4] 2 1 [1.0; 3.0; 5.0]
           [5 # 2; 25 # 2; 13 # 2]); reflexivity.
Defined.

(** ** The boundary reconciler: composition and lengths *)

Lemma corresp_onset_offset_inv (onset offset : list Q) (tmin tmax : Q)
    (r : list Q * list Q) :
  corresp_onset_offset onset offset tmin tmax = Ok r ->
  exists on0 off0 onl offl,
    head onset = Some on0 /\ head offset = Some off0
    /\ last onset = Some onl /\ last offset = Some offl
    /\ r = (if Qgtb on0 off0 then tmin :: onset else onset,
            if Qgtb onl offl then offset ++ [tmax] else offset).
Proof.
  intros H.
  assert (Hon : onset <> []) by (intros ->; discriminate H).
  assert (Hoff : offset <> []).
  { intros ->. unfold corresp_onset_offset in H.
    destruct (head onset); discriminate H. }
  destruct (head_is_Some _ Hon) as [on0 H1].
  destruct (head_is_Some _ Hoff) as [off0 H2].
  destruct (last_is_Some_ne _ Hon) as [onl H3].
  destruct (last_is_Some_ne _ Hoff) as [offl H4].
  exists on0, off0, onl, offl. repeat (split; [assumption|]).
  rewrite (corresp_onset_offset_eq _ _ tmin tmax _ _ _ _ H1 H2 H3 H4) in H.
  congruence.
Qed.

Lemma head_app_ne {A} (l k : list A) : l <> [] -> head (l ++ k) = head l.
Proof. destruct l; [congruence|reflexivity]. Qed.

(** X6: when [tmin] is not after the first offset and [tmax] not before
    the last onset, the result of [corresp_onset_offset] starts with an
    onset not after its first offset, ends with an offset not before
    its last onset, and reconciling it again changes nothing. *)
Theorem X6_corresp_idempotent (onset offset on' off' : list Q)
    (tmin tmax : Q) :
  corresp_onset_offset onset offset tmin tmax = Ok (on', off') ->
  (forall x, head offset = Some x -> tmin <= x) ->
  (forall x, last onset = Some x -> x <= tmax) ->
  (exists a b, head on' = Some a /\ head off' = Some b /\ a <= b)
  /\ (exists a b, last on' = Some a /\ last off' = Some b /\ a <= b)
  /\ corresp_onset_offset on' off' tmin tmax = Ok (on', off').
Proof.
  intros H Hmin Hmax.
  destruct (corresp_onset_offset_inv _ _ _ _ _ H)
    as (on0 & off0 & onl & offl & H1 & H2 & H3 & H4 & E).
  inversion E as [[Eon Eoff]]. clear E.
  assert (Hon : onset <> []) by (intros ->; discriminate).
  assert (Hoff : offset <> []) by (intros ->; discriminate).
  set (a := if Qgtb on0 off0 then tmin else on0).
  set (b := if Qgtb onl offl then tmax else offl).
  assert (Ha : head (if Qgtb on0 off0 then tmin :: onset else onset) = Some a).
  { unfold a. destruct (Qgtb on0 off0); [reflexivity|exact H1]. }
  assert (Hb : head (if Qgtb onl offl then offset ++ [tmax] else offset)
               = Some off0).
  { destruct (Qgtb onl offl); [rewrite head_app_ne by exact Hoff|]; exact H2. }
  assert (Hla : last (if Qgtb on0 off0 then tmin :: onset else onset)
                = Some onl).
  { destruct (Qgtb on0 off0); [rewrite last_cons_ne by exact Hon|]; exact H3. }
  assert (Hlb : last (if Qgtb onl offl then offset ++ [tmax] else offset)
                = Some b).
  { unfold b. destruct (Qgtb onl offl); [apply last_snoc|exact H4]. }
  assert (Hab : a <= off0).
  { unfold a. destruct (Qgtb on0 off0) eqn:G.
    - apply Hmin. exact H2.
    - apply Qgtb_le. exact G. }
  assert (Hlab : onl <= b).
  { unfold b. destruct (Qgtb onl offl) eqn:G.
    - apply Hmax. exact H3.
    - apply Qgtb_le. exact G. }
  split; [exists a, off0; auto|]. split; [exists onl, b; auto|].
  rewrite (corresp_onset_offset_eq _ _ tmin tmax _ _ _ _ Ha Hb Hla Hlb).
  apply Qgtb_le in Hab, Hlab. rewrite Hab, Hlab. reflexivity.
Qed.

Lemma X6_corresp_idempotent_witness :
  (exists a b, head [0; 4; 9] = Some a /\ head [2; 6; 10] = Some b /\ a <= b)
  /\ (exists a b, last [0; 4; 9] = Some a /\ last [2; 6; 10] = Some b
                  /\ a <= b)
  /\ corresp_onset_offset [0; 4; 9] [2; 6; 10] 0 10
     = Ok ([0; 4; 9], [2; 6; 10]).
Proof.
  apply (X6_corresp_idempotent [4; 9] [2; 6] [0; 4; 9] [2; 6; 10] 0 10).
  - reflexivity.
  - intros x [= <-]. vm_compute. discriminate.
  - intros x [= <-]. vm_compute. discriminate.
Defined.

(** The lengths of the reconciled sequences do not depend on the values
    of [tmin] and [tmax]. *)
Lemma corresp_lengths_indep (onset offset : list Q) (tmin tmax tmin' tmax' : Q)
    (r r' : list Q * list Q) :
  corresp_onset_offset onset offset tmin tmax = Ok r ->
  corresp_onset_offset onset offset tmin' tmax' = Ok r' ->
  length r.1 = length r'.1 /\ length r.2 = length r'.2.
Proof.
  intros H H'.
  destruct (corresp_onset_offset_inv _ _ _ _ _ H)
    as (on0 & off0 & onl & offl & H1 & H2 & H3 & H4 & ->).
  destruct (corresp_onset_offset_inv _ _ _ _ _ H')
    as (on0' & off0' & onl' & offl' & H1' & H2' & H3' & H4' & ->).
  assert (on0' = on0) by congruence. assert (off0' = off0) by congruence.
  assert (onl' = onl) by congruence. assert (offl' = offl) by congruence.
  subst. simpl.
  destruct (Qgtb on0 off0), (Qgtb onl offl); simpl;
    rewrite ?length_app; auto.
Qed.

(** The onsets and offsets of a mask on an increasing grid are the
    alternate places of one increasing sequence of transition times:
    offsets first when the mask starts active, onsets first
    otherwise. *)
Lemma edges_interleaved (t : list Q) (b : bool) (rest : list bool)
    (onset offset : list Q) :
  grid_increasing t ->
  onset_times t (b :: rest) = Ok onset ->
  offset_times t (b :: rest) = Ok offset ->
  exists M,
    increasing M
    /\ onset = (if b then odds M else evens M)
    /\ offset = (if b then evens M else odds M).
Proof.
  intros Hgrid Hon Hoff.
  destruct (edge_times_ok _ _ _ _ Hon) as (t0 & Ht0 & Eon & Fon).
  destruct (edge_times_ok _ _ _ _ Hoff) as (t0' & Ht0' & Eoff & Foff).
  assert (t0' = t0) by congruence. subst t0'.
  destruct (transitions_alternate b rest 0) as [Aon Aoff].
  fold (np_where (fun x => (x >? 0)%Z) (np_diff (astype_int (b :: rest))))
    in Aon.
  fold (np_where (fun x => (x <? 0)%Z) (np_diff (astype_int (b :: rest))))
    in Aoff.
  set (m := transitions 0 (b :: rest)) in *.
  set (g := fun i => default 0 (t !! i) + t0) in *.
  rewrite Aon in Eon, Fon. rewrite Aoff in Eoff, Foff.
  exists (g <$> m). split; [|split].
  - assert (Hrange : forall a, a ∈ m -> is_Some (t !! a)).
    { intros a Ha. rewrite Forall_forall in Fon, Foff.
      destruct (elem_of_evens_odds _ _ Ha); destruct b; auto. }
    assert (Hm : increasing_nat m) by apply where_from_increasing.
    intros j x y Hx Hy. rewrite list_lookup_fmap in Hx, Hy.
    destruct (m !! j) as [a|] eqn:Ea; [|discriminate].
    destruct (m !! S j) as [c|] eqn:Ec; [|discriminate].
    simpl in Hx, Hy. inversion Hx; inversion Hy; subst x y.
    destruct (Hrange a) as [ta Hta]; [apply list_elem_of_lookup; eauto|].
    destruct (Hrange c) as [tc Htc]; [apply list_elem_of_lookup; eauto|].
    unfold g. rewrite Hta, Htc. simpl.
    apply Qplus_lt_l. apply (Hgrid a c); [|assumption..].
    apply (Hm j); assumption.
  - rewrite Eon. destruct b; [apply eq_sym, odds_fmap|apply eq_sym, evens_fmap].
  - rewrite Eoff. destruct b; [apply eq_sym, evens_fmap|apply eq_sym, odds_fmap].
Qed.

Lemma edge_times_nil (cond : Z -> bool) (t r : list Q) :
  edge_times cond t [] = Ok r -> r = [].
Proof.
  intros H. destruct (edge_times_ok _ _ _ _ H) as (t0 & _ & -> & _).
  reflexivity.
Qed.

(** X7: for non-empty onset and offset sequences taken from one mask on
    a strictly increasing grid, [corresp_onset_offset] returns two
    sequences of the same length, whatever [tmin] and [tmax] are. *)
Theorem X7_reconciled_lengths_agree (t : list Q) (mask : list bool)
    (onset offset : list Q) (tmin tmax : Q) :
  grid_increasing t ->
  onset_times t mask = Ok onset ->
  offset_times t mask = Ok offset ->
  onset <> [] -> offset <> [] ->
  exists on' off',
    corresp_onset_offset onset offset tmin tmax = Ok (on', off')
    /\ length on' = length off'.
Proof.
  intros Hgrid Hon Hoff Hone Hoffne.
  destruct mask as [|b rest];
    [apply edge_times_nil in Hon; congruence|].
  destruct (edges_interleaved _ _ _ _ _ Hgrid Hon Hoff) as (M & HM & Eon & Eoff).
  destruct (head_is_Some _ Hoffne) as [off0 Hoff0].
  destruct (last_is_Some_ne _ Hone) as [onl Honl].
  destruct (reconcile_interleaved b M onset offset (off0 - 1) (onl + 1))
    as (M' & _ & Heven & Hres); try assumption.
  { intros x Hx. assert (x = off0) by congruence. subst x.
    apply Qlt_minus_iff. ring_simplify. reflexivity. }
  { intros x Hx. assert (x = onl) by congruence. subst x.
    apply Qlt_minus_iff. ring_simplify. reflexivity. }
  destruct (corresp_onset_offset_ok onset offset tmin tmax Hone Hoffne)
    as [[on' off'] Hr].
  exists on', off'. split; [exact Hr|].
  destruct (corresp_lengths_indep _ _ _ _ _ _ _ _ Hr Hres) as [L1 L2].
  simpl in L1, L2. rewrite L1, L2. apply evens_odds_length. exact Heven.
Qed.

Lemma X7_reconciled_lengths_agree_witness :
  exists on' off',
    corresp_onset_offset [4; 8] [2; 6] 100 (-100) = Ok (on', off')
    /\ length on' = length off'.
Proof.
  apply (X7_reconciled_lengths_agree [1; 3; 5; 7; 9]
           (segments_bin [5; 0; 5; 0; 5] 1) [4; 8] [2; 6] 100 (-100)).
  - apply grid_increasing_of_increasing.
    intros j x y.
    do 5 (destruct j as [|j];
          [intros [= <-]; try discriminate; intros [= <-]; reflexivity|]).
    discriminate.
  - reflexivity.
  - reflexivity.
  - discriminate.
  - discriminate.
Defined.

Lemma evens_odds_length_le {A} (l : list A) :
  (length (odds l) <= length (evens l) <= length (odds l) + 1)%nat.
Proof.
  induction l as [| x | x y l IH] using list_ind2.
  - simpl. lia.
  - simpl. lia.
  - rewrite evens_cons, !odds_cons, evens_cons. simpl. lia.
Qed.

(** X8: the edges of a mask alternate, so the numbers of onsets and
    offsets differ by at most one: a mask that starts inactive has as
    many onsets as offsets or one more, a mask that starts active as
    many offsets as onsets or one more. *)
Theorem X8_edge_counts (t : list Q) (mask : list bool)
    (onset offset : list Q) :
  onset_times t mask = Ok onset ->
  offset_times t mask = Ok offset ->
  (head mask = Some false ->
   (length offset <= length onset <= length offset + 1)%nat)
  /\ (head mask = Some true ->
      (length onset <= length offset <= length onset + 1)%nat)
  /\ (length onset <= length offset + 1)%nat
  /\ (length offset <= length onset + 1)%nat.
Proof.
  intros Hon Hoff.
  destruct mask as [|b rest].
  { apply edge_times_nil in Hon, Hoff. subst. simpl.
    repeat split; (discriminate || lia). }
  destruct (edge_times_ok _ _ _ _ Hon) as (t0 & _ & -> & _).
  destruct (edge_times_ok _ _ _ _ Hoff) as (t0' & _ & -> & _).
  destruct (transitions_alternate b rest 0) as [Aon Aoff].
  unfold np_where. rewrite Aon, Aoff, !length_fmap.
  pose proof (evens_odds_length_le (transitions 0 (b :: rest))) as Hle.
  destruct b; simpl; repeat split; intros; (discriminate || lia).
Qed.

Lemma X8_edge_counts_witness :
  (length [4; 8] <= length [2; 6; 10] <= length [4; 8] + 1)%nat.
Proof.
  destruct (X8_edge_counts [1; 3; 5; 7; 9; 11]
              (segments_bin [5; 0; 5; 0; 5; 0] 1) [4; 8] [2; 6; 10])
    as (_ & H & _); [reflexivity..|].
  apply H. reflexivity.
Defined.

(** ** The table *)

Lemma zip4_lookup (a b c d : list Q) (i : nat) (x y z w : Q) :
  a !! i = Some x -> b !! i = Some y -> c !! i = Some z -> d !! i = Some w ->
  zip4 a b c d !! i = Some [x; y; z; w].
Proof.
  revert b c d i. induction a as [|x' a IH]; intros b c d i Ha Hb Hc Hd.
  - destruct i; discriminate.
  - destruct b as [|y' b]; [destruct i; discriminate|].
    destruct c as [|z' c]; [destruct i; discriminate|].
    destruct d as [|w' d]; [destruct i; discriminate|].
    destruct i as [|i]; simpl in *.
    + congruence.
    + apply IH; assumption.
Qed.

Lemma zip4_length (a b c d : list Q) :
  length a = length b -> length b = length c -> length c = length d ->
  length (zip4 a b c d) = length a.
Proof.
  revert b c d. induction a as [|x a IH]; intros b c d Hb Hc Hd.
  - reflexivity.
  - destruct b as [|y b]; [discriminate|].
    destruct c as [|z c]; [discriminate|].
    destruct d as [|w d]; [discriminate|].
    simpl in *. f_equal. apply IH; congruence.
Qed.

(** The table of two sequences of the same length. *)
Lemma build_table_ok (flims : Q * Q) (save_df : bool) (file : string)
    (onset offset : list Q) :
  length onset = length offset ->
  exists df,
    build_table flims save_df file onset offset
    = Ok (df, if save_df then [ToCsv file true df] else [])
    /\ columns df = ["onset"; "fmin"; "offset"; "fmax"]%string
    /\ length (rows df) = length onset
    /\ forall i x y, onset !! i = Some x -> offset !! i = Some y ->
         rows df !! i = Some [np_round5 x; flims.1; np_round5 y; flims.2].
Proof.
  intros Hlen. unfold build_table, np_transpose4.
  rewrite !length_fmap, !length_replicate, <- Hlen, !Nat.eqb_refl.
  simpl. eexists. split; [reflexivity|]. split; [reflexivity|]. split.
  - simpl. rewrite zip4_length;
      rewrite ?length_fmap, ?length_replicate; auto.
  - intros i x y Hx Hy. simpl.
    assert (Hi : (i < length onset)%nat) by (apply lookup_lt_Some in Hx; exact Hx).
    apply zip4_lookup.
    + rewrite list_lookup_fmap, Hx. reflexivity.
    + apply lookup_replicate_2. exact Hi.
    + rewrite list_lookup_fmap, Hy. reflexivity.
    + apply lookup_replicate_2. exact Hi.
Qed.

(** X9: when lines 153 to 172 build a table for a detection, every row
    is a reconciled onset rounded to five decimals, the lower band
    limit, the matching reconciled offset rounded to five decimals and
    the upper band limit: all rows carry the same frequency bounds, and
    there is one row per reconciled onset. *)
Theorem X9_table_rows (len_s : nat) (fs : Q) (flims : Q * Q)
    (save_df : bool) (savefilename : option string)
    (onset offset on' off' : list Q) :
  onset <> [] -> offset <> [] -> ~ fs == 0 ->
  corresp_onset_offset onset offset 0 (inject_Z (Z.of_nat len_s) / fs)
    = Ok (on', off') ->
  length on' = length off' ->
  exists df eff,
    format_rois len_s fs flims save_df savefilename onset offset
      = Ok (df, eff)
    /\ columns df = ["onset"; "fmin"; "offset"; "fmax"]%string
    /\ length (rows df) = length on'
    /\ forall i x y, on' !! i = Some x -> off' !! i = Some y ->
         rows df !! i = Some [np_round5 x; flims.1; np_round5 y; flims.2].
Proof.
  intros Hon Hoff Hfs Hr Hlen.
  rewrite (format_rois_call_site _ _ _ _ _ _ _ Hon Hoff Hfs), Hr, bind_ret_l.
  destruct (build_table_ok flims save_df
              (default "rois.csv"%string savefilename) on' off' Hlen)
    as (df & Hdf & Hcols & Hrows & Hrow).
  exists df, (if save_df
              then [ToCsv (default "rois.csv"%string savefilename) true df]
              else []).
  auto.
Qed.

Lemma X9_table_rows_witness :
  exists df eff,
    format_rois 10 1 (2000, 8000) false None [4; 9] [2; 6] = Ok (df, eff)
    /\ columns df = ["onset"; "fmin"; "offset"; "fmax"]%string
    /\ length (rows df) = length [0; 4; 9]
    /\ forall i x y, [0; 4; 9] !! i = Some x ->
                     [2; 6; 10 / 1] !! i = Some y ->
         rows df !! i
         = Some [np_round5 x; (2000, 8000).1; np_round5 y; (2000, 8000).2].
Proof.
  apply (X9_table_rows 10 1 (2000, 8000) false None [4; 9] [2; 6]
           [0; 4; 9] [2; 6; 10 / 1]).
  - discriminate.
  - discriminate.
  - vm_compute. discriminate.
  - reflexivity.
  - reflexivity.
Defined.

(** ** The window length of [find_rois_cwt] *)

Lemma py_int_integer (q : Q) (z : Z) :
  q == inject_Z z -> py_int (Some q) = Ok z.
Proof.
  intros H. unfold Qeq in H. simpl in H. unfold py_int.
  rewrite Z.mul_1_r in H. rewrite H. f_equal. apply Z.quot_mul. discriminate.
Qed.

Lemma py_int_fraction (q : Q) : 0 <= q -> q < 1 -> py_int (Some q) = Ok 0%Z.
Proof.
  intros H0 H1. unfold Qle in H0. unfold Qlt in H1. simpl in H0, H1.
  unfold py_int. f_equal. apply Z.quot_small. lia.
Qed.

Lemma exp2_floor_log2_pos (x : Q) :
  0 < x -> exp2_floor_log2 x = Some (2 ^ floor_log2 x).
Proof.
  intros H. unfold exp2_floor_log2.
  apply Qgt_alt in H. rewrite H. reflexivity.
Qed.

(** X10: for [tlen*fs*0.05 >= 1] the window length [int(wl)] of lines
    140 and 141 is the largest power of two that does not exceed
    [tlen*fs*0.05]: at most 5% of the expected event length, in
    samples, and more than half of that. *)
Theorem X10_window_length (x : Q) :
  1 <= x ->
  exists k,
    (0 <= k)%Z
    /\ py_int (exp2_floor_log2 x) = Ok (2 ^ k)%Z
    /\ inject_Z (2 ^ k) <= x
    /\ x < inject_Z (2 ^ (k + 1)).
Proof.
  intros Hx.
  assert (Hpos : 0 < x) by (apply Qlt_le_trans with 1; [reflexivity|exact Hx]).
  assert (Hfl : (1 <= Qfloor x)%Z).
  { change 1%Z with (Qfloor 1). apply Qfloor_resp_le. exact Hx. }
  exists (Z.log2 (Qfloor x)).
  pose proof (Z.log2_nonneg (Qfloor x)) as Hk.
  destruct (Z.log2_spec (Qfloor x)) as [Hlo Hhi]; [lia|].
  split; [exact Hk|]. split; [|split].
  - rewrite exp2_floor_log2_pos by exact Hpos.
    unfold floor_log2. apply Qle_bool_iff in Hx. rewrite Hx.
    apply py_int_integer. symmetry. apply (Zpower_Qpower 2). exact Hk.
  - apply Qle_trans with (inject_Z (Qfloor x)); [|apply Qfloor_le].
    rewrite <- Zle_Qle. exact Hlo.
  - apply Qlt_le_trans with (inject_Z (Qfloor x + 1)); [apply Qlt_floor|].
    rewrite <- Zle_Qle. rewrite <- Z.add_1_r in Hhi. lia.
Qed.

Lemma X10_window_length_witness :
  exists k,
    (0 <= k)%Z
    /\ py_int (exp2_floor_log2 (0.5 * 44100 * 0.05)) = Ok (2 ^ k)%Z
    /\ inject_Z (2 ^ k) <= 0.5 * 44100 * 0.05
    /\ 0.5 * 44100 * 0.05 < inject_Z (2 ^ (k + 1)).
Proof.
  apply (X10_window_length (0.5 * 44100 * 0.05)).
  vm_compute. discriminate.
Defined.

Lemma floor_log2_neg (x : Q) : 0 < x -> x < 1 -> (floor_log2 x < 0)%Z.
Proof.
  intros H0 H1. unfold floor_log2.
  assert (G : Qle_bool 1 x = false).
  { destruct (Qle_bool 1 x) eqn:E; [|reflexivity].
    apply Qle_bool_iff in E. exfalso. apply (Qlt_not_le _ _ H1 E). }
  rewrite G.
  assert (Hinv : 1 < / x).
  { change (/ 1 < / x).
    apply (proj1 (Qinv_lt_contravar x 1 H0 eq_refl) H1). }
  assert (Hc : (1 < Qceiling (/ x))%Z).
  { rewrite Zlt_Qlt. apply Qlt_le_trans with (/ x);
      [exact Hinv|apply Qle_ceiling]. }
  pose proof (Z.log2_up_pos _ Hc). lia.
Qed.

Lemma Qpower_2_neg (k : Z) : (k < 0)%Z -> 0 <= 2 ^ k /\ 2 ^ k < 1.
Proof.
  intros Hk. split; [apply Qpower_0_le; discriminate|].
  destruct k as [|p|p]; try lia.
  change (2 ^ Z.neg p) with (/ (2 ^ Z.pos p)).
  assert (Hb : 1 < 2 ^ Z.pos p).
  { rewrite <- (Zpower_Qpower 2 (Z.pos p)) by lia.
    change 1 with (inject_Z 1). rewrite <- Zlt_Qlt.
    apply Z.pow_gt_1; lia. }
  assert (Hb0 : 0 < 2 ^ Z.pos p)
    by (apply Qlt_trans with 1; [reflexivity|exact Hb]).
  change (/ (2 ^ Z.pos p) < / 1).
  apply (proj1 (Qinv_lt_contravar 1 (2 ^ Z.pos p) eq_refl Hb0) Hb).
Qed.

(** The window length is 0 when [0 <= tlen*fs*0.05 < 1]. *)
Lemma py_int_window_small (x : Q) :
  0 <= x -> x < 1 -> py_int (exp2_floor_log2 x) = Ok 0%Z.
Proof.
  intros H0 H1. destruct (Qlt_le_dec 0 x) as [Hpos|Hle].
  - rewrite exp2_floor_log2_pos by exact Hpos.
    destruct (Qpower_2_neg (floor_log2 x) (floor_log2_neg x Hpos H1)).
    apply py_int_fraction; assumption.
  - assert (E : x == 0) by (apply Qle_antisym; assumption).
    unfold exp2_floor_log2. apply Qeq_alt in E. rewrite E. reflexivity.
Qed.

(** ** The entry point: failures and degenerate detections *)

Lemma where_from_none (p : Z -> bool) (d : list Z) (k : nat) :
  (forall x, x ∈ d -> p x = false) -> where_from k p d = [].
Proof.
  revert k. induction d as [|x d IH]; intros k H; simpl; [reflexivity|].
  rewrite (H x) by left. apply IH. intros y Hy. apply H. right. exact Hy.
Qed.

(** The forward difference of a constant mask is zero everywhere. *)
Lemma np_diff_constant (c : bool) (mask : list bool) (x : Z) :
  (forall b, b ∈ mask -> b = c) ->
  x ∈ np_diff (astype_int mask) -> x = 0%Z.
Proof.
  intros Hc Hx. apply list_elem_of_lookup in Hx. destruct Hx as [i Hi].
  rewrite np_diff_lookup in Hi. unfold astype_int in Hi.
  rewrite !list_lookup_fmap in Hi.
  destruct (mask !! S i) as [b1|] eqn:E1; [|discriminate].
  destruct (mask !! i) as [b2|] eqn:E2; [|discriminate].
  assert (b1 = c) by (apply Hc, list_elem_of_lookup; eauto).
  assert (b2 = c) by (apply Hc, list_elem_of_lookup; eauto).
  subst. simpl in Hi. inversion Hi. lia.
Qed.

(** A constant mask has no edge. *)
Lemma edge_times_constant (cond : Z -> bool) (t : list Q) (t0 : Q)
    (c : bool) (mask : list bool) :
  cond 0%Z = false -> t !! 0%nat = Some t0 ->
  (forall b, b ∈ mask -> b = c) ->
  edge_times cond t mask = Ok [].
Proof.
  intros Hcond Ht0 Hc. unfold edge_times, np_where.
  rewrite where_from_none.
  - rewrite Ht0. reflexivity.
  - intros x Hx. rewrite (np_diff_constant c mask x Hc Hx). exact Hcond.
Qed.

Section EntryPoint.

Variable kaiserord : Q -> Q -> result (Z * Q).
Variable firwin : Z -> Q * Q -> Q -> Q -> bool -> result (list Q).
Variable lfilter : list Q -> Q -> list Q -> result (list Q).
Variable cwt_ricker : list Q -> Z -> result (list Q).

(** X11: a zero sampling rate makes [sinc], and so [find_rois_cwt],
    raise [ZeroDivisionError] before any scipy function is called:
    the transition width is divided by [0.5*fs] on line 36. *)
Theorem X11_zero_sampling_rate (s : list Q) (cutoff flims : Q * Q)
    (fs atten transition_bw tlen th : Q) (bandpass display save_df : bool)
    (savefilename : option string) :
  fs == 0 ->
  sinc kaiserord firwin lfilter s cutoff fs atten transition_bw bandpass
    = Raise ZeroDivisionError
  /\ find_rois_cwt kaiserord firwin lfilter cwt_ricker s fs flims tlen th
       display save_df savefilename
     = Raise ZeroDivisionError.
Proof.
  intros Hfs.
  assert (Hnyq : 0.5 * fs == 0) by (rewrite Hfs; reflexivity).
  assert (Hsinc : forall c a b p,
    sinc kaiserord firwin lfilter s c fs a b p = Raise ZeroDivisionError).
  { intros c a b p. unfold sinc. cbv zeta.
    rewrite (pydiv_zero _ _ Hnyq). reflexivity. }
  split; [apply Hsinc|].
  unfold find_rois_cwt, smoothed. rewrite Hsinc. reflexivity.
Qed.

(** X12: when the band filter returns, a window of less than one
    sample makes [find_rois_cwt] fail: for [0 <= tlen*fs*0.05 < 1] the
    window length [int(wl)] is 0 and [energy_windowed] raises
    [ZeroDivisionError]; for [tlen*fs*0.05 < 0] the logarithm is [nan]
    and [int(wl)] raises [ValueError]. *)
Theorem X12_degenerate_window (s s_filt : list Q) (fs : Q) (flims : Q * Q)
    (tlen th : Q) (display save_df : bool) (savefilename : option string) :
  sinc kaiserord firwin lfilter s flims fs 80 0.8 true = Ok s_filt ->
  (tlen * fs * 0.05 < 0 ->
   find_rois_cwt kaiserord firwin lfilter cwt_ricker s fs flims tlen th
     display save_df savefilename = Raise ValueError)
  /\ (0 <= tlen * fs * 0.05 -> tlen * fs * 0.05 < 1 ->
      find_rois_cwt kaiserord firwin lfilter cwt_ricker s fs flims tlen th
        display save_df savefilename = Raise ZeroDivisionError).
Proof.
  intros Hsinc. split.
  - intros Hneg. unfold find_rois_cwt, smoothed.
    rewrite Hsinc, bind_ret_l. cbv zeta.
    assert (E : exp2_floor_log2 (tlen * fs * 0.05) = None).
    { unfold exp2_floor_log2.
      assert (C : Qcompare (tlen * fs * 0.05) 0 = Lt)
        by (apply Qlt_alt; exact Hneg).
      rewrite C. reflexivity. }
    rewrite E. reflexivity.
  - intros H0 H1. unfold find_rois_cwt, smoothed.
    rewrite Hsinc, bind_ret_l. cbv zeta.
    rewrite (py_int_window_small _ H0 H1), bind_ret_l. reflexivity.
Qed.

End EntryPoint.

Lemma X11_zero_sampling_rate_witness :
  sinc Scipy.kaiserord Scipy.firwin Scipy.lfilter [1; 2; 3] (5, 15) 0 80 0.8
    true = Raise ZeroDivisionError
  /\ find_rois_cwt Scipy.kaiserord Scipy.firwin Scipy.lfilter
       Scipy.cwt_ricker [1; 2; 3] 0 (5, 15) 1 0 false false None
     = Raise ZeroDivisionError.
Proof.
  apply (X11_zero_sampling_rate Scipy.kaiserord Scipy.firwin Scipy.lfilter
           Scipy.cwt_ricker [1; 2; 3] (5, 15) (5, 15) 0 80 0.8 1 0 true
           false false None).
  reflexivity.
Defined.

Lemma X12_degenerate_window_witness :
  find_rois_cwt Scipy.kaiserord Scipy.firwin Scipy.lfilter Scipy.cwt_ricker
    [1; 2; 3] 40 (5, 15) (1 # 10) 0 false false None
  = Raise ZeroDivisionError.
Proof.
  destruct (X12_degenerate_window Scipy.kaiserord Scipy.firwin Scipy.lfilter
              Scipy.cwt_ricker [1; 2; 3]
              (match sinc Scipy.kaiserord Scipy.firwin Scipy.lfilter
                       [1; 2; 3] (5, 15) 40 80 0.8 true with
               | Ok r => r
               | Raise _ => []
               end)
              40 (5, 15) (1 # 10) 0 false false None) as [_ H].
  - vm_compute. reflexivity.
  - apply H; vm_compute; [discriminate|reflexivity].
Defined.

(** ** The entry point: alignment and totality after smoothing *)

Lemma py_slice_trim_length {A} (c : list A) (p : Z) (n : nat) :
  (0 <= p)%Z -> length c = (Z.to_nat p + n + Z.to_nat p)%nat ->
  length (py_slice c p (Z.of_nat (length c) - p)) = n.
Proof.
  intros Hp Hlen. unfold py_slice, py_index.
  assert (G1 : (p <? 0)%Z = false) by (apply Z.ltb_ge; lia).
  assert (G2 : (Z.of_nat (length c) - p <? 0)%Z = false)
    by (apply Z.ltb_ge; lia).
  rewrite G1, G2, length_take, length_drop. lia.
Qed.

Lemma np_pad_reflect_inv (a r : list Q) (p : Z) :
  a <> [] -> np_pad_reflect a p p = Ok r ->
  (0 <= p)%Z /\ length r = (Z.to_nat p + length a + Z.to_nat p)%nat.
Proof.
  intros Ha H.
  assert (Hp : (0 <= p)%Z).
  { destruct (Z.ltb_spec p 0) as [Hlt|Hge]; [|exact Hge].
    unfold np_pad_reflect in H.
    assert (G : (p <? 0)%Z = true) by (apply Z.ltb_lt; exact Hlt).
    rewrite G in H. discriminate H. }
  split; [exact Hp|].
  destruct (np_pad_reflect_ok a p p Ha Hp Hp) as (l & r' & E & Hl & Hr).
  rewrite E in H. inversion H. rewrite !length_app. lia.
Qed.

Lemma np_take_total (t : list Q) (idx : list nat) :
  (forall i, i ∈ idx -> (i < length t)%nat) ->
  exists r, np_take t idx = Ok r.
Proof.
  induction idx as [|i idx IH]; intros H.
  - exists []. reflexivity.
  - destruct IH as [r Hr]; [intros j Hj; apply H; right; exact Hj|].
    destruct (lookup_lt_is_Some_2 t i) as [x Hx]; [apply H; left|].
    exists (x :: r). rewrite np_take_cons, Hx. cbn [of_option].
    rewrite bind_ret_l, Hr. reflexivity.
Qed.

(** On a non-empty grid at least as long as the mask the edge
    extraction reads [t] in range. *)
Lemma edge_times_total (cond : Z -> bool) (t : list Q) (mask : list bool) :
  t <> [] -> (length mask <= length t)%nat ->
  exists r, edge_times cond t mask = Ok r.
Proof.
  intros Ht Hlen. unfold edge_times.
  destruct (np_take_total t (np_where cond (np_diff (astype_int mask))))
    as [r Hr].
  { intros i Hi. apply where_from_lt in Hi.
    rewrite np_diff_length in Hi. unfold astype_int in Hi.
    rewrite length_fmap in Hi.
    destruct t; [congruence|]. simpl in *. lia. }
  rewrite Hr, bind_ret_l.
  destruct t as [|t0 t]; [congruence|]. eexists. reflexivity.
Qed.

(** Lines 153 to 172 return a table for the edges of any mask on an
    increasing grid. *)
Lemma format_rois_total (t : list Q) (mask : list bool)
    (onset offset : list Q) (len_s : nat) (fs : Q) (flims : Q * Q)
    (save_df : bool) (savefilename : option string) :
  grid_increasing t -> ~ fs == 0 ->
  onset_times t mask = Ok onset ->
  offset_times t mask = Ok offset ->
  exists df eff,
    format_rois len_s fs flims save_df savefilename onset offset
    = Ok (df, eff).
Proof.
  intros Hgrid Hfs Hon Hoff.
  destruct (decide (onset = [] \/ offset = [])) as [Hempty|Hne].
  { unfold format_rois. rewrite (size_guard_true _ _ Hempty).
    eexists _, _. reflexivity. }
  assert (Hone : onset <> []) by tauto.
  assert (Hoffne : offset <> []) by tauto.
  rewrite (format_rois_call_site _ _ _ _ _ _ _ Hone Hoffne Hfs).
  destruct mask as [|b rest]; [apply edge_times_nil in Hon; congruence|].
  destruct (edges_interleaved _ _ _ _ _ Hgrid Hon Hoff) as (M & HM & Eon & Eoff).
  destruct (head_is_Some _ Hoffne) as [off0 Hoff0].
  destruct (last_is_Some_ne _ Hone) as [onl Honl].
  destruct (reconcile_interleaved b M onset offset (off0 - 1) (onl + 1))
    as (M' & _ & Heven & Hres); try assumption.
  { intros x Hx. assert (x = off0) by congruence. subst x.
    apply Qlt_minus_iff. ring_simplify. reflexivity. }
  { intros x Hx. assert (x = onl) by congruence. subst x.
    apply Qlt_minus_iff. ring_simplify. reflexivity. }
  destruct (corresp_onset_offset_ok onset offset 0
              (inject_Z (Z.of_nat len_s) / fs) Hone Hoffne)
    as [[on' off'] Hr].
  destruct (corresp_lengths_indep _ _ _ _ _ _ _ _ Hr Hres) as [L1 L2].
  simpl in L1, L2.
  assert (Hlen : length on' = length off').
  { rewrite L1, L2. apply evens_odds_length. exact Heven. }
  rewrite Hr, bind_ret_l.
  destruct (build_table_ok flims save_df
              (default "rois.csv"%string savefilename) on' off' Hlen)
    as (df & Hdf & _).
  eexists _, _. exact Hdf.
Qed.

(** The grid of a successful [energy_windowed] increases when the
    sampling rate is positive. *)
Lemma energy_grid_increasing (s : list Q) (wl : Z) (fs : Q)
    (t s_rms : list Q) :
  energy_windowed s wl fs = Ok (t, s_rms) -> 0 < fs ->
  grid_increasing t /\ t <> [] /\ length t = length s_rms.
Proof.
  intros H Hfs. destruct (energy_windowed_ok_inv _ _ _ _ H) as (Hs & Hwl & _).
  destruct (energy_windowed_result _ _ _ _ _ H) as (ext & _ & -> & ->).
  set (rows := Z.to_nat (Z.of_nat (length s) / wl + 1)).
  assert (Hrows : (0 < rows)%nat).
  { unfold rows. pose proof (Z.div_pos (Z.of_nat (length s)) wl). lia. }
  split; [|split].
  - apply grid_increasing_of_increasing. intros k x y Hx Hy.
    assert (Hk : (S k < rows)%nat).
    { apply lookup_lt_Some in Hy. rewrite length_fmap, length_seq in Hy.
      exact Hy. }
    rewrite seq_fmap_lookup in Hx by lia.
    rewrite seq_fmap_lookup in Hy by lia.
    inversion Hx; inversion Hy; subst x y.
    apply Qplus_lt_l. unfold Qdiv.
    apply Qmult_lt_compat_r; [apply Qinv_lt_0_compat; exact Hfs|].
    apply Qmult_lt_compat_r.
    + change 0 with (inject_Z 0). rewrite <- Zlt_Qlt. exact Hwl.
    + rewrite <- Zlt_Qlt. lia.
  - destruct rows; [lia|]. discriminate.
  - rewrite !length_fmap, length_seq, chunks_length. reflexivity.
Qed.

Lemma energy_grid_first (s : list Q) (wl : Z) (fs : Q) (t s_rms : list Q) :
  energy_windowed s wl fs = Ok (t, s_rms) -> exists t0, t !! 0%nat = Some t0.
Proof.
  intros H. destruct (energy_windowed_ok_inv _ _ _ _ H) as (Hs & Hwl & _).
  destruct (energy_windowed_result _ _ _ _ _ H) as (ext & _ & -> & _).
  eexists. apply seq_fmap_lookup.
  pose proof (Z.div_pos (Z.of_nat (length s)) wl). lia.
Qed.

Lemma second_diff_length (prev : Q) (x : list Q) :
  length (Scipy.second_diff prev x) = length x.
Proof.
  revert prev. induction x as [|v x IH]; intros prev; simpl; [reflexivity|].
  rewrite IH. reflexivity.
Qed.

Section Smoothing.

Variable kaiserord : Q -> Q -> result (Z * Q).
Variable firwin : Z -> Q * Q -> Q -> Q -> bool -> result (list Q).
Variable lfilter : list Q -> Q -> list Q -> result (list Q).
Variable cwt_ricker : list Q -> Z -> result (list Q).

(** The calls that a successful run of lines 138 to 147 has made. *)
Lemma smoothed_inv (s : list Q) (fs : Q) (flims : Q * Q) (tlen : Q)
    (t s_cwt : list Q) :
  smoothed kaiserord firwin lfilter cwt_ricker s fs flims tlen
    = Ok (t, s_cwt) ->
  exists s_filt wl_int s_rms w padded_rms cwt_out,
    sinc kaiserord firwin lfilter s flims fs 80 0.8 true = Ok s_filt
    /\ energy_windowed s_filt wl_int fs = Ok (t, s_rms)
    /\ np_pad_reflect s_rms (w * 5) (w * 5) = Ok padded_rms
    /\ cwt_ricker padded_rms w = Ok cwt_out
    /\ s_cwt = py_slice cwt_out (w * 5) (Z.of_nat (length cwt_out) - w * 5).
Proof.
  unfold smoothed.
  destruct (sinc _ _ _ _ _ _ _ _ _) as [s_filt|e]; [|discriminate].
  rewrite bind_ret_l. cbv zeta.
  destruct (py_int _) as [wl_int|e]; [|discriminate].
  rewrite bind_ret_l.
  destruct (energy_windowed s_filt wl_int fs) as [[t' s_rms]|e] eqn:He;
    [|discriminate].
  rewrite bind_ret_l.
  destruct (pydiv _ _) as [ratio|e]; [|discriminate].
  rewrite bind_ret_l.
  destruct (np_pad_reflect _ _ _) as [padded_rms|e] eqn:Hp; [|discriminate].
  rewrite bind_ret_l.
  destruct (cwt_ricker _ _) as [cwt_out|e] eqn:Hc; [|discriminate].
  rewrite bind_ret_l. intros [= <- <-].
  exists s_filt, wl_int, s_rms, (py_round (ratio / 2)), padded_rms, cwt_out.
  auto.
Qed.

(** X13: when the smoothed series exceeds the threshold at every
    sample, or at none, the mask has no edge and [find_rois_cwt]
    returns the empty table: a sound that is active over the whole
    signal is reported as no detection. *)
Theorem X13_constant_mask_no_detection (s : list Q) (fs : Q)
    (flims : Q * Q) (tlen th : Q) (display save_df : bool)
    (savefilename : option string) (t s_cwt : list Q) :
  smoothed kaiserord firwin lfilter cwt_ricker s fs flims tlen
    = Ok (t, s_cwt) ->
  (forall x, x ∈ s_cwt -> th < x) \/ (forall x, x ∈ s_cwt -> x <= th) ->
  onset_times t (segments_bin s_cwt th) = Ok []
  /\ offset_times t (segments_bin s_cwt th) = Ok []
  /\ find_rois_cwt kaiserord firwin lfilter cwt_ricker s fs flims tlen th
       display save_df savefilename
     = Ok (empty_frame,
           Print "Warning: No detection found"
             :: (if save_df
                 then [ToCsv (default "rois.csv"%string savefilename) false
                         empty_frame]
                 else [])
             ++ (if display then [Plot s_cwt th []] else [])).
Proof.
  intros Hs Hconst.
  destruct (smoothed_inv _ _ _ _ _ _ Hs)
    as (s_filt & wl_int & s_rms & w & padded_rms & cwt_out & _ & He & _).
  destruct (energy_grid_first _ _ _ _ _ He) as [t0 Ht0].
  assert (Hmask : exists c, forall b, b ∈ segments_bin s_cwt th -> b = c).
  { destruct Hconst as [Hall|Hnone]; [exists true|exists false];
      intros b Hb; apply list_elem_of_fmap in Hb;
      destruct Hb as (x & -> & Hx).
    - apply Qgtb_lt. apply Hall. exact Hx.
    - apply Qgtb_le. apply Hnone. exact Hx. }
  destruct Hmask as [c Hc].
  assert (Hon : onset_times t (segments_bin s_cwt th) = Ok [])
    by (apply (edge_times_constant _ t t0 c); auto).
  assert (Hoff : offset_times t (segments_bin s_cwt th) = Ok [])
    by (apply (edge_times_constant _ t t0 c); auto).
  split; [exact Hon|]. split; [exact Hoff|].
  unfold find_rois_cwt. rewrite Hs, bind_ret_l. cbv zeta.
  rewrite Hon, bind_ret_l, Hoff, bind_ret_l. reflexivity.
Qed.

(** X14: with a positive sampling rate and a [cwt] that returns as many
    values as it is given, a successful smoothing (lines 138 to 147)
    yields a series as long as the time grid, and the rest of
    [find_rois_cwt] returns a table: the edge extraction reads the grid
    in range and the reconciled sequences always fit one table. *)
Theorem X14_total_after_smoothing (s : list Q) (fs : Q) (flims : Q * Q)
    (tlen th : Q) (display save_df : bool) (savefilename : option string)
    (t s_cwt : list Q) :
  smoothed kaiserord firwin lfilter cwt_ricker s fs flims tlen
    = Ok (t, s_cwt) ->
  0 < fs ->
  (forall data w r, cwt_ricker data w = Ok r -> length r = length data) ->
  length s_cwt = length t
  /\ exists df eff,
       find_rois_cwt kaiserord firwin lfilter cwt_ricker s fs flims tlen th
         display save_df savefilename = Ok (df, eff).
Proof.
  intros Hs Hfs Hcwt.
  destruct (smoothed_inv _ _ _ _ _ _ Hs)
    as (s_filt & wl_int & s_rms & w & padded_rms & cwt_out
        & _ & He & Hp & Hc & ->).
  destruct (energy_grid_increasing _ _ _ _ _ He Hfs) as (Hgrid & Ht & Hlen).
  assert (Hrms : s_rms <> []).
  { intros ->. destruct t; [congruence|discriminate]. }
  destruct (np_pad_reflect_inv _ _ _ Hrms Hp) as [Hw Hpl].
  assert (Hal : length (py_slice cwt_out (w * 5)
                          (Z.of_nat (length cwt_out) - w * 5)) = length t).
  { rewrite Hlen. apply py_slice_trim_length; [exact Hw|].
    rewrite (Hcwt _ _ _ Hc). exact Hpl. }
  split; [exact Hal|].
  set (s_cwt := py_slice cwt_out (w * 5) (Z.of_nat (length cwt_out) - w * 5))
    in *.
  assert (Hml : (length (segments_bin s_cwt th) <= length t)%nat).
  { unfold segments_bin. rewrite length_fmap. lia. }
  destruct (edge_times_total (fun d => (d >? 0)%Z) t _ Ht Hml) as [onset Hon].
  destruct (edge_times_total (fun d => (d <? 0)%Z) t _ Ht Hml) as [offset Hoff].
  assert (Hfs0 : ~ fs == 0).
  { intros E. rewrite E in Hfs. apply (Qlt_irrefl 0). exact Hfs. }
  destruct (format_rois_total t _ onset offset (length s) fs flims save_df
              savefilename Hgrid Hfs0 Hon Hoff) as (df & eff & Hdf).
  unfold find_rois_cwt. rewrite Hs, bind_ret_l. cbv zeta.
  fold (onset_times t (segments_bin s_cwt th)) in Hon.
  fold (offset_times t (segments_bin s_cwt th)) in Hoff.
  rewrite Hon, bind_ret_l, Hoff, bind_ret_l, Hdf, bind_ret_l.
  eexists _, _. reflexivity.
Qed.

End Smoothing.

Lemma X13_constant_mask_no_detection_witness :
  find_rois_cwt Scipy.kaiserord Scipy.firwin Scipy.lfilter Scipy.cwt_ricker
    (replicate 17 0) 40 (5, 15) 1 (-1) false false None
  = Ok (empty_frame, [Print "Warning: No detection found"]).
Proof.
  refine (proj2 (proj2
            (X13_constant_mask_no_detection Scipy.kaiserord Scipy.firwin
               Scipy.lfilter Scipy.cwt_ricker (replicate 17 0) 40 (5, 15) 1
               (-1) false false None _ (replicate 9 0) _ _))).
  - vm_compute. reflexivity.
  - left. intros x Hx. apply elem_of_replicate in Hx. destruct Hx as [-> _].
    reflexivity.
Defined.

Lemma X14_total_after_smoothing_witness :
  exists df eff,
    find_rois_cwt Scipy.kaiserord Scipy.firwin Scipy.lfilter Scipy.cwt_ricker
      [0; 0; 0; 0; 1; -1; 1; -1; 1; -1; 0; 0; 0; 0; 0; 0; 0] 40 (5, 15) 1 0
      false false None = Ok (df, eff).
Proof.
  refine (proj2
            (X14_total_after_smoothing Scipy.kaiserord Scipy.firwin
               Scipy.lfilter Scipy.cwt_ricker
               [0; 0; 0; 0; 1; -1; 1; -1; 1; -1; 0; 0; 0; 0; 0; 0; 0] 40
               (5, 15) 1 0 false false None _ _ _ _ _)).
  - vm_compute. reflexivity.
  - reflexivity.
  - intros data w r [= <-]. apply second_diff_length.
Defined.

(** ** Rounding *)

(** [round] goes to the floor or to the next integer, by the
    fractional part and, on a tie, by the parity of the floor. *)
Lemma py_round_spec (x : Q) :
  let f := Qfloor x in
  let r := x - inject_Z f in
  0 <= r /\ r < 1
  /\ ((py_round x = f /\ (r < 1 # 2 \/ (r == 1 # 2 /\ Z.even f = true)))
      \/ (py_round x = (f + 1)%Z
          /\ (1 # 2 < r \/ (r == 1 # 2 /\ Z.even f = false)))).
Proof.
  cbv zeta. pose proof (Qfloor_le x) as Hlo. pose proof (Qlt_floor x) as Hhi.
  rewrite inject_Z_plus in Hhi. change (inject_Z 1) with 1 in Hhi.
  assert (H0 : 0 <= x - inject_Z (Qfloor x)).
  { generalize dependent (inject_Z (Qfloor x)). intros fq Hlo Hhi. lra. }
  assert (H1 : x - inject_Z (Qfloor x) < 1).
  { generalize dependent (inject_Z (Qfloor x)). intros fq Hlo Hhi _. lra. }
  split; [exact H0|]. split; [exact H1|].
  unfold py_round.
  destruct (Qcompare (x - inject_Z (Qfloor x)) (1 # 2)) eqn:E.
  - apply Qeq_alt in E. destruct (Z.even (Qfloor x)) eqn:Ev; [left|right];
      (split; [reflexivity|right; split; [exact E|reflexivity]]).
  - apply Qlt_alt in E. left. split; [reflexivity|left; exact E].
  - apply Qgt_alt in E. right. split; [reflexivity|left; exact E].
Qed.

Lemma py_round_near (x : Q) :
  - (1 # 2) <= inject_Z (py_round x) - x /\ inject_Z (py_round x) - x <= 1 # 2.
Proof.
  destruct (py_round_spec x) as (H0 & H1 & [[-> Hc]|[-> Hc]]).
  - generalize dependent (inject_Z (Qfloor x)). intros fq H0 H1 Hc.
    destruct Hc as [Hc|[Hc _]]; lra.
  - rewrite inject_Z_plus. change (inject_Z 1) with 1.
    generalize dependent (inject_Z (Qfloor x)). intros fq H0 H1 Hc.
    destruct Hc as [Hc|[Hc _]]; lra.
Qed.

Lemma py_round_monotone (x y : Q) : x <= y -> (py_round x <= py_round y)%Z.
Proof.
  intros Hxy. pose proof (Qfloor_resp_le x y Hxy) as Hf.
  destruct (py_round_spec x) as (Hx0 & Hx1 & Hx).
  destruct (py_round_spec y) as (Hy0 & Hy1 & Hy).
  destruct (Z.eq_dec (Qfloor x) (Qfloor y)) as [E|NE].
  - rewrite E in *.
    destruct Hx as [[-> Hx]|[-> Hx]], Hy as [[-> Hy]|[-> Hy]]; try lia.
    exfalso. generalize dependent (inject_Z (Qfloor y)). intros fq.
    intros Hx0 Hx1 Hx Hy0 Hy1 Hy.
    destruct Hx as [Hx|[Hx Ex]], Hy as [Hy|[Hy Ey]];
      try lra. congruence.
  - assert (py_round x <= Qfloor x + 1)%Z
      by (destruct Hx as [[-> _]|[-> _]]; lia).
    assert (Qfloor y <= py_round y)%Z
      by (destruct Hy as [[-> _]|[-> _]]; lia).
    lia.
Qed.

(** X15: rounding to five decimals, as applied to the onsets and
    offsets of the table, moves a value by at most half a unit of the
    fifth decimal and keeps the order: a row never has its onset after
    its offset when the reconciled onset is not after the offset. *)
Theorem X15_round5 (x y : Q) :
  Qabs (np_round5 x - x) <= 1 # 200000
  /\ (x <= y -> np_round5 x <= np_round5 y).
Proof.
  split.
  - apply Qabs_Qle_condition. unfold np_round5.
    destruct (py_round_near (x * 100000)) as [Hlo Hhi].
    generalize dependent (inject_Z (py_round (x * 100000))).
    intros n Hlo Hhi.
    assert (E : n / 100000 - x == (n - x * 100000) * (1 # 100000))
      by (unfold Qdiv; change (/ 100000) with (1 # 100000); ring).
    rewrite E. split; lra.
  - intros Hxy. unfold np_round5.
    assert (Hm : x * 100000 <= y * 100000) by lra.
    apply py_round_monotone in Hm. rewrite Zle_Qle in Hm.
    unfold Qdiv. change (/ 100000) with (1 # 100000).
    generalize dependent (inject_Z (py_round (x * 100000))).
    generalize dependent (inject_Z (py_round (y * 100000))).
    intros ny nx Hm. lra.
Qed.

Lemma X15_round5_witness :
  Qabs (np_round5 (1 # 3) - (1 # 3)) <= 1 # 200000
  /\ np_round5 (1 # 3) <= np_round5 ((1 # 3) + (1 # 1000000)).
Proof.
  destruct (X15_round5 (1 # 3) ((1 # 3) + (1 # 1000000))) as [H1 H2].
  split; [exact H1|]. apply H2. vm_compute. discriminate.
Defined.

(** ** Reflection padding *)

Lemma reflect_tail_extends (fuel : nat) (a : list Q) (k : nat) :
  exists e, reflect_tail fuel a k = a ++ e.
Proof.
  revert a k. induction fuel as [|fuel IH]; intros a k.
  - exists []. simpl. rewrite app_nil_r. reflexivity.
  - destruct k as [|k]; [exists []; simpl; rewrite app_nil_r; reflexivity|].
    cbn [reflect_tail].
    destruct (IH (a ++ take ((length a - 1) `min` S k) (tail (reverse a)))
                (S k - (length a - 1) `min` S k)%nat) as [e He].
    rewrite He, <- app_assoc. eexists. reflexivity.
Qed.

(** The values appended by the first round of the reflection. *)
Lemma reflect_ext_mirror (a : list Q) (k j : nat) :
  (j < k)%nat -> (j + 2 <= length a)%nat ->
  reflect_ext a k !! j = a !! (length a - 2 - j)%nat.
Proof.
  intros Hj Hlen. unfold reflect_ext.
  destruct k as [|k]; [lia|]. cbn [reflect_tail].
  set (chunk := (length a - 1) `min` S k).
  destruct (reflect_tail_extends k (a ++ take chunk (tail (reverse a)))
              (S k - chunk)) as [e He].
  rewrite He, <- app_assoc, drop_app_length.
  assert (Hc : (j < chunk)%nat) by (unfold chunk; lia).
  rewrite lookup_app_l
    by (rewrite length_take, tail_length, length_reverse; lia).
  rewrite lookup_take_lt by exact Hc.
  rewrite lookup_tail, reverse_lookup by lia.
  f_equal. lia.
Qed.

Lemma np_pad_reflect_tail_eq (a : list Q) (k : Z) :
  (2 <= length a)%nat -> (0 <= k)%Z ->
  np_pad_reflect a 0 k = Ok (a ++ reflect_ext a (Z.to_nat k)).
Proof.
  intros Ha Hk. unfold np_pad_reflect.
  assert (G : ((0 <? 0)%Z || (k <? 0)%Z) = false)
    by (apply orb_false_iff; split; apply Z.ltb_ge; lia).
  rewrite G. destruct a as [|x [|y a]]; [simpl in Ha; lia..|].
  change (Z.to_nat 0) with 0%nat.
  assert (E0 : reflect_ext (reverse (x :: y :: a)) 0 = []).
  { unfold reflect_ext. simpl reflect_tail. apply drop_all. }
  rewrite E0, reverse_nil, app_nil_l. reflexivity.
Qed.

(** X16: the samples that line 96 appends mirror the end of the signal
    about its last sample, which is not repeated: the [j]-th appended
    sample is [s[len(s) - 2 - j]], as far as the signal reaches; the
    signal itself is kept in front. *)
Theorem X16_padding_mirrors_tail (s p : list Q) (wl : Z) (j : nat) :
  padded s wl = Ok p ->
  (length s + j < length p)%nat -> (j + 2 <= length s)%nat ->
  take (length s) p = s
  /\ p !! (length s + j)%nat = s !! (length s - 2 - j)%nat.
Proof.
  intros Hp Hj Hlen. unfold padded in Hp.
  destruct (pad_amount _ _) as [k|e]; [|discriminate].
  rewrite bind_ret_l in Hp.
  assert (Hk : (0 <= k)%Z).
  { destruct (Z.ltb_spec k 0) as [Hlt|Hge]; [|exact Hge].
    unfold np_pad_reflect in Hp.
    assert (G : (k <? 0)%Z = true) by (apply Z.ltb_lt; exact Hlt).
    rewrite G in Hp. discriminate Hp. }
  rewrite np_pad_reflect_tail_eq in Hp by lia.
  injection Hp as <-.
  rewrite length_app, reflect_ext_length in Hj by lia.
  split; [apply take_app_length|].
  rewrite lookup_app_r by lia.
  replace (length s + j - length s)%nat with j by lia.
  apply reflect_ext_mirror; [lia|exact Hlen].
Qed.

Lemma X16_padding_mirrors_tail_witness :
  take (length [1; 2; 3; 4; 5]) [1; 2; 3; 4; 5; 4; 3; 2] = [1; 2; 3; 4; 5]
  /\ [1; 2; 3; 4; 5; 4; 3; 2] !! (length [1; 2; 3; 4; 5] + 2)%nat
     = [1; 2; 3; 4; 5] !! (length [1; 2; 3; 4; 5] - 2 - 2)%nat.
Proof.
  apply (X16_padding_mirrors_tail [1; 2; 3; 4; 5] [1; 2; 3; 4; 5; 4; 3; 2]
           4 2).
  - reflexivity.
  - simpl. lia.
  - simpl. lia.
Defined.

(** X17: the trimming of line 147 undoes the padding of line 145:
    cutting [p] values from each end of the reflection-padded energy
    series gives the energy series back. *)
Theorem X17_trim_undoes_pad (a r : list Q) (p : Z) :
  np_pad_reflect a p p = Ok r ->
  py_slice r p (Z.of_nat (length r) - p) = a.
Proof.
  intros H.
  assert (Hp : (0 <= p)%Z).
  { destruct (Z.ltb_spec p 0) as [Hlt|Hge]; [|exact Hge].
    unfold np_pad_reflect in H.
    assert (G : (p <? 0)%Z = true) by (apply Z.ltb_lt; exact Hlt).
    rewrite G in H. discriminate H. }
  destruct a as [|x a].
  - unfold np_pad_reflect in H.
    destruct ((p <? 0)%Z || (p <? 0)%Z); [discriminate|].
    destruct ((p =? 0)%Z && (p =? 0)%Z); [|discriminate].
    inversion H. unfold py_slice. rewrite drop_nil, take_nil. reflexivity.
  - destruct (np_pad_reflect_ok (x :: a) p p) as (l & e & E & Hl & He);
      [discriminate | exact Hp | exact Hp |].
    assert (Er : r = l ++ (x :: a) ++ e) by congruence.
    subst r. clear H E.
    unfold py_slice, py_index. cbv zeta.
    assert (Hlen : length (l ++ (x :: a) ++ e)
                   = (Z.to_nat p + length (x :: a) + Z.to_nat p)%nat)
      by (rewrite !length_app; lia).
    assert (G1 : (p <? 0)%Z = false) by (apply Z.ltb_ge; lia).
    assert (G2 : (Z.of_nat (length (l ++ (x :: a) ++ e)) - p <? 0)%Z = false)
      by (apply Z.ltb_ge; lia).
    rewrite G1, G2.
    replace (Z.to_nat (Z.min p (Z.of_nat (length (l ++ (x :: a) ++ e)))))
      with (length l) by lia.
    rewrite drop_app_length.
    replace (Z.to_nat
               (Z.min (Z.of_nat (length (l ++ (x :: a) ++ e)) - p)
                  (Z.of_nat (length (l ++ (x :: a) ++ e)))
                - Z.min p (Z.of_nat (length (l ++ (x :: a) ++ e)))))
      with (length (x :: a)) by lia.
    apply take_app_length.
Qed.

Lemma X17_trim_undoes_pad_witness :
  py_slice [3; 2; 1; 2; 3; 4; 3; 2] 2
    (Z.of_nat (length [3; 2; 1; 2; 3; 4; 3; 2]) - 2)
  = [1; 2; 3; 4].
Proof.
  apply (X17_trim_undoes_pad [1; 2; 3; 4] [3; 2; 1; 2; 3; 4; 3; 2] 2).
  reflexivity.
Defined.

(** ** The bounds of the entry point *)

Lemma call_site_brackets_witness :
  0 < 200 # 100
  /\ 200 # 100 <= inject_Z (Z.of_nat (length [1; 2; 3; 4; 5])) / 1
  /\ ((Z.of_nat (length [1; 2; 3; 4; 5]) mod 2 <> 0)%Z ->
      200 # 100 < inject_Z (Z.of_nat (length [1; 2; 3; 4; 5])) / 1).
Proof.
  apply (call_site_brackets [1; 2; 3; 4; 5] 2 1 [1.0; 3.0; 5.0]
           [5 # 2; 25 # 2; 41 # 2] (fun d => (d >? 0)%Z)
           [false; true; false] [200 # 100]).
  - discriminate.
  - reflexivity.
  - reflexivity.
  - reflexivity.
  - simpl. lia.
  - reflexivity.
  - apply list_elem_of_lookup. exists 0%nat. reflexivity.
Defined.

(** ** The band filter on a malformed band *)

Lemma pydiv_inv_ok (x y w : Q) : pydiv x y = Ok w -> w = x / y /\ ~ y == 0.
Proof.
  unfold pydiv. destruct (Qeq_bool y 0) eqn:E; [discriminate|].
  intros [= <-]. split; [reflexivity|].
  intros H. apply Qeq_bool_iff in H. congruence.
Qed.

Lemma pydiv_inv_raise (x y : Q) (e : exn) :
  pydiv x y = Raise e -> e = ZeroDivisionError.
Proof.
  unfold pydiv. destruct (Qeq_bool y 0); [|discriminate]. congruence.
Qed.

Section BandCheck.

Variable kaiserord : Q -> Q -> result (Z * Q).
Variable firwin : Z -> Q * Q -> Q -> Q -> bool -> result (list Q).
Variable lfilter : list Q -> Q -> list Q -> result (list Q).

(** C1 (amended): [sinc] has no check of its own, so a malformed band
    fails where its callees refuse it.  With a [kaiserord] that refuses
    a zero width and a [firwin] that refuses a band that does not
    increase strictly, neither of them raising [InvalidBandError],
    every band with [high <= low] and every zero transition bandwidth
    makes [sinc] fail at filter design: with an exception other than
    [InvalidBandError], and before [lfilter], whatever the filter
    routine and the signal are. *)
Theorem C1_malformed_band_fails_at_design (s : list Q) (cutoff : Q * Q)
    (fs atten transition_bw : Q) (bandpass : bool) :
  (forall a w, w == 0 -> exists e, kaiserord a w = Raise e) ->
  (forall n c b nyq pz, c.2 <= c.1 -> exists e, firwin n c b nyq pz = Raise e) ->
  (forall a w e, kaiserord a w = Raise e -> e <> InvalidBandError) ->
  (forall n c b nyq pz e, firwin n c b nyq pz = Raise e ->
                          e <> InvalidBandError) ->
  cutoff.2 <= cutoff.1 \/ (cutoff.2 - cutoff.1) * transition_bw == 0 ->
  exists e,
    sinc kaiserord firwin lfilter s cutoff fs atten transition_bw bandpass
      = Raise e
    /\ e <> InvalidBandError
    /\ forall lfilter' s',
         sinc kaiserord firwin lfilter' s' cutoff fs atten transition_bw
           bandpass = Raise e.
Proof.
  intros Hk Hf Hke Hfe Hband.
  assert (Hall : exists e,
    e <> InvalidBandError
    /\ forall lfilter' s',
         sinc kaiserord firwin lfilter' s' cutoff fs atten transition_bw
           bandpass = Raise e).
  { unfold sinc. cbv zeta.
    destruct (pydiv ((cutoff.2 - cutoff.1) * transition_bw) (0.5 * fs))
      as [w|e] eqn:Ed.
    - destruct (kaiserord atten w) as [[numtaps beta]|e] eqn:Ek.
      + destruct Hband as [Hband|Hzero].
        * destruct (Hf numtaps cutoff beta (0.5 * fs) (negb bandpass) Hband)
            as [e He].
          exists e. split; [apply (Hfe _ _ _ _ _ _ He)|].
          intros lfilter' s'. simpl. rewrite Ek. simpl. rewrite He.
          reflexivity.
        * exfalso. apply pydiv_inv_ok in Ed. destruct Ed as [-> _].
          destruct (Hk atten ((cutoff.2 - cutoff.1) * transition_bw
                              / (0.5 * fs))) as [e He].
          { unfold Qdiv. rewrite Hzero. apply Qmult_0_l. }
          congruence.
      + exists e. split; [apply (Hke _ _ _ Ek)|].
        intros lfilter' s'. simpl. rewrite Ek. reflexivity.
    - exists e. split.
      + apply pydiv_inv_raise in Ed. subst e. discriminate.
      + intros lfilter' s'. reflexivity. }
  destruct Hall as (e & Hne & He). exists e.
  split; [apply He|]. split; [exact Hne|exact He].
Qed.

End BandCheck.

Lemma Scipy_kaiserord_zero_width (a w : Q) :
  w == 0 -> exists e, Scipy.kaiserord a w = Raise e.
Proof.
  intros Hw. unfold Scipy.kaiserord. cbv zeta.
  destruct (Qgtb 8 (Qabs a)); [eexists; reflexivity|].
  rewrite pydiv_zero; [eexists; reflexivity|].
  rewrite Hw. apply Qmult_0_r.
Qed.

Lemma Scipy_firwin_increasing (n : Z) (c : Q * Q) (b nyq : Q) (pz : bool) :
  c.2 <= c.1 -> exists e, Scipy.firwin n c b nyq pz = Raise e.
Proof.
  intros H. unfold Scipy.firwin.
  destruct (_ || _); [eexists; reflexivity|].
  apply Qle_bool_iff in H. rewrite H. eexists. reflexivity.
Qed.

Lemma Scipy_kaiserord_exn (a w : Q) (e : exn) :
  Scipy.kaiserord a w = Raise e -> e <> InvalidBandError.
Proof.
  unfold Scipy.kaiserord. cbv zeta.
  destruct (Qgtb 8 (Qabs a)); [intros [= <-]; discriminate|].
  destruct (pydiv _ _) as [n|e'] eqn:Ed; [discriminate|].
  apply pydiv_inv_raise in Ed. subst e'. intros [= <-]. discriminate.
Qed.

Lemma Scipy_firwin_exn (n : Z) (c : Q * Q) (b nyq : Q) (pz : bool) (e : exn) :
  Scipy.firwin n c b nyq pz = Raise e -> e <> InvalidBandError.
Proof.
  unfold Scipy.firwin.
  destruct (_ || _); [intros [= <-]; discriminate|].
  destruct (Qle_bool _ _); [intros [= <-]; discriminate|].
  destruct (_ && _); [intros [= <-]; discriminate|].
  destruct (_ <? _)%Z; [intros [= <-]; discriminate|discriminate].
Qed.

(** The reversed band (3000, 2000) is refused by [firwin]. *)
Lemma C1_malformed_band_fails_at_design_witness :
  exists e,
    sinc Scipy.kaiserord Scipy.firwin Scipy.lfilter [1; 2; 3] (3000, 2000)
      44100 80 0.8 true = Raise e
    /\ e <> InvalidBandError
    /\ forall lfilter' s',
         sinc Scipy.kaiserord Scipy.firwin lfilter' s' (3000, 2000) 44100 80
           0.8 true = Raise e.
Proof.
  apply (C1_malformed_band_fails_at_design Scipy.kaiserord Scipy.firwin
           Scipy.lfilter [1; 2; 3] (3000, 2000) 44100 80 0.8 true
           Scipy_kaiserord_zero_width Scipy_firwin_increasing
           Scipy_kaiserord_exn Scipy_firwin_exn).
  left. vm_compute. discriminate.
Defined.

(** C1, as stated, fails.  On the band (2000, 8000) with the transition
    fraction -400 the transition bandwidth is negative, yet
    [kaiserord] returns one tap, [firwin] designs it and [sinc] returns
    a filtered signal: nothing refuses the band.  Where [sinc] does
    fail, on the degenerate band (2000, 2000), the exception is the
    [ZeroDivisionError] of [kaiserord]'s division, not an
    [InvalidBandError]. *)
Lemma C1_negative_width_proceeds :
  (((2000, 8000).2 - (2000, 8000).1) * (-400) <= 0
   /\ Scipy.kaiserord 80 (((2000, 8000).2 - (2000, 8000).1) * (-400)
                          / (0.5 * 44100))
      = Ok (1%Z, 0.1102 * (Qabs 80 - 8.7))
   /\ sinc Scipy.kaiserord Scipy.firwin Scipy.lfilter [1; 2; 3] (2000, 8000)
        44100 80 (-400) true = Ok [1; 2; 3])
  /\ (sinc Scipy.kaiserord Scipy.firwin Scipy.lfilter [1; 2; 3] (2000, 2000)
        44100 80 0.8 true = Raise ZeroDivisionError
      /\ Raise (A:=list Q) ZeroDivisionError <> Raise InvalidBandError).
Proof.
  split; [split; [vm_compute; discriminate|split; reflexivity]|].
  split; [reflexivity|discriminate].
Qed.

(** ** The last interval at the end of the signal *)

(** C4, evaluated where the claim fails.  At 1 Hz with an expected
    length of 40 s the window is two samples.  The signal 3, 3, 0, 0 is
    two whole windows; line 96 appends a third, so the energies are
    9, 0, 9/2 on the grid 1, 3, 5.  With the threshold 1 the mask is
    active, inactive, active: the onset of the last run is
    [t[1] + t[0] = 4], and the offset appended for it is
    [tmax = len(s)/fs = 4], so the second row has its onset equal to
    its offset.  With one sample more the same mask ends at
    [tmax = 5] and the row is in order. *)
Theorem C4_empty_interval_at_signal_end :
  let run s :=
    find_rois_cwt Passthrough.kaiserord Passthrough.firwin Scipy.lfilter
      Passthrough.cwt_ricker s 1 (2000, 8000) 40 1 false false None in
  (Z.of_nat (length [3; 3; 0; 0]) mod 2 = 0)%Z
  /\ match energy_windowed [3; 3; 0; 0] 2 1 with
     | Ok (t, s_rms) =>
         (Qred <$> t, Qred <$> s_rms) = ([1; 3; 5], [9; 0; 9 # 2])
     | Raise _ => False
     end
  /\ segments_bin [9; 0; 9 # 2] 1 = [true; false; true]
  /\ rows_of (run [3; 3; 0; 0])
     = Some [[0; 2000; 2; 8000]; [4; 2000; 4; 8000]]
  /\ ~ (4 < 4)
  /\ rows_of (run [3; 3; 0; 0; 3])
     = Some [[0; 2000; 2; 8000]; [4; 2000; 5; 8000]].
Proof.
  cbv zeta. do 4 (split; [reflexivity|]).
  split; [vm_compute; discriminate|reflexivity].
Qed.
